(** * HashMap: a chained hash table over a singly linked element list

    Shallow embedding of [src/hash_map.h].  The class keeps

    - [elements_], a [std::forward_list] of (key, value) pairs,
    - [table_], a [std::vector] of buckets; a bucket is a
      [std::forward_list] of iterators into [elements_], each one pointing
      at the node *before* the entry it stands for,
    - [size_] and the hash functor [hasher_].

    Modelling choices.

    - A node of [elements_] has an address; an iterator into [elements_] is
      [before_begin], the address of a node, or [past_end].  Iterators
      stay valid while their node is alive, as for [std::forward_list].
    - Using an iterator in a way the C++ standard leaves undefined
      (dereferencing [end()], advancing a dangling iterator, indexing a
      vector out of range, [% 0]) yields [Undefined].
    - [std::out_of_range] is the only exception the class throws; memory
      exhaustion is not modelled, and so [size_t] is [nat]: [size_] counts
      nodes and [table_.size()] is a list length, below twice the number
      of nodes after the first [insert], so neither [++size_] nor
      [2 * prev_size] can wrap on a machine that holds the nodes.  A hash
      value is any [nat].  [--size_] is [pred]; it runs only after a
      marker was found, where [size_] is positive in every state the
      class can be in.
    - [static_cast<double>(size_) / table_.size() > max_load_factor_],
      with [max_load_factor_ = 1.0], is [table_.size() < size_]: the
      quotient of the two counters exceeds one exactly when the first
      exceeds the second, in the range where [double] holds them exactly.
    - [KeyType]'s [operator==] is decidable equality, and a [Hash] is a
      function of the key.
    - [const] is not modelled: [at] and the second [find] are [const]
      member functions with the body given here. *)

From stdpp Require Import base decidable option list numbers gmap.

Set Default Proof Using "Type".

(** ** Outcome of a member function: state passing with exceptions *)

Inductive exception := out_of_range.

Inductive Res (St A : Type) : Type :=
| Val (a : A) (s : St)
| Throw (e : exception) (s : St)
| Undefined.
Arguments Val {St A} a s.
Arguments Throw {St A} e s.
Arguments Undefined {St A}.

Definition M (St A : Type) : Type := St → Res St A.

Definition ret {St A} (a : A) : M St A := λ s, Val a s.

Definition bind {St A B} (c : M St A) (k : A → M St B) : M St B :=
  λ s, match c s with
       | Val a s' => k a s'
       | Throw e s' => Throw e s'
       | Undefined => Undefined
       end.

Definition gets {St A} (f : St → A) : M St A := λ s, Val (f s) s.
Definition modify {St} (f : St → St) : M St unit := λ s, Val tt (f s).
Definition undefined {St A} : M St A := λ _, Undefined.
Definition throw {St A} (e : exception) : M St A := λ s, Throw e s.

Definition defined {St A} (o : option A) : M St A :=
  match o with
  | Some a => ret a
  | None => undefined
  end.

(** The result of a call without the state it leaves. *)
Definition outcome {St A} (r : Res St A) : option (A + exception) :=
  match r with
  | Val a _ => Some (inl a)
  | Throw e _ => Some (inr e)
  | Undefined => None
  end.

(** [for (auto it = first; it != last; ++it) body( *it)] over a range that
    the body leaves alone. *)
Fixpoint for_each {St A} (body : A → M St unit) (its : list A) : M St unit :=
  match its with
  | [] => ret tt
  | x :: rest => bind (body x) (λ _, for_each body rest)
  end.

Declare Scope cpp_scope.
Delimit Scope cpp_scope with cpp.
Notation "x <- c ;; k" := (bind c (λ x, k))
  (at level 100, c at next level, right associativity) : cpp_scope.
Notation "c ;;; k" := (bind c (λ _, k))
  (at level 100, right associativity) : cpp_scope.
Open Scope cpp_scope.

(** ** Iterators into [elements_] *)

Inductive iterator :=
| before_begin
| node_at (a : nat)
| past_end.

#[global] Instance iterator_eq_dec : EqDecision iterator.
Proof. solve_decision. Defined.

Section HashMap.
Context {KeyType ValueType : Type} `{EqDecision KeyType}.
(** [ValueType()] *)
Variable default_value : ValueType.

Definition Element : Type := KeyType * ValueType.

Record Node := { addr : nat; elem : Element }.

Definition key_of (n : Node) : KeyType := fst (elem n).
Definition value_of (n : Node) : ValueType := snd (elem n).

(** *** [std::forward_list<Element>] *)

Definition begin_of (l : list Node) : iterator :=
  match l with
  | [] => past_end
  | n :: _ => node_at (addr n)
  end.

Fixpoint after_node (a : nat) (l : list Node) : option (list Node) :=
  match l with
  | [] => None
  | n :: r => if decide (addr n = a) then Some r else after_node a r
  end.

(** The nodes that follow position [it]; [None] when [it] is [end()] or
    points at no node of the list. *)
Definition after (it : iterator) (l : list Node) : option (list Node) :=
  match it with
  | before_begin => Some l
  | node_at a => after_node a l
  | past_end => None
  end.

(** [std::next(it)] *)
Definition next_of (it : iterator) (l : list Node) : option iterator :=
  begin_of <$> after it l.

(** [*std::next(it)] *)
Definition succ_node (it : iterator) (l : list Node) : option Node :=
  after it l ≫= head.

(** [*it] *)
Definition node_of (it : iterator) (l : list Node) : option Node :=
  match it with
  | node_at a => List.find (λ n, bool_decide (addr n = a)) l
  | _ => None
  end.

(** The allocator hands out an address no live node of the list has. *)
Definition fresh_addr (l : list Node) : nat :=
  S (foldr Nat.max 0 (addr <$> l)).

Definition push_front (p : Element) (l : list Node) : list Node :=
  {| addr := fresh_addr l; elem := p |} :: l.

Fixpoint erase_after_node (a : nat) (l : list Node) : option (list Node) :=
  match l with
  | [] => None
  | n :: r =>
      if decide (addr n = a)
      then match r with [] => None | _ :: r' => Some (n :: r') end
      else cons n <$> erase_after_node a r
  end.

(** [elements_.erase_after(it)] *)
Definition erase_after (it : iterator) (l : list Node) : option (list Node) :=
  match it with
  | before_begin => match l with [] => None | _ :: r => Some r end
  | node_at a => erase_after_node a l
  | past_end => None
  end.

(** *** The class *)

Record HashMap := {
  hasher_ : KeyType → nat;
  elements_ : list Node;
  table_ : list (list iterator);
  size_ : nat
}.

Definition set_elements (f : list Node → list Node) (m : HashMap) : HashMap :=
  {| hasher_ := hasher_ m; elements_ := f (elements_ m);
     table_ := table_ m; size_ := size_ m |}.
Definition set_table (f : list (list iterator) → list (list iterator))
    (m : HashMap) : HashMap :=
  {| hasher_ := hasher_ m; elements_ := elements_ m;
     table_ := f (table_ m); size_ := size_ m |}.
Definition set_size (f : nat → nat) (m : HashMap) : HashMap :=
  {| hasher_ := hasher_ m; elements_ := elements_ m;
     table_ := table_ m; size_ := f (size_ m) |}.

Abbreviation Method := (M HashMap).

(** [a % b] on [size_t] *)
Definition modulo (a b : nat) : Method nat :=
  match b with
  | 0 => undefined
  | S _ => ret (a `mod` b)
  end.

(** [hasher_(key) % table_.size()] *)
Definition bucket_index_of (key : KeyType) : Method nat :=
  h <- gets (λ m, hasher_ m key);;
  n <- gets (λ m, length (table_ m));;
  modulo h n.

(** [table_[i]] *)
Definition bucket (i : nat) : Method (list iterator) :=
  t <- gets table_;; defined (t !! i).

(** The loop of [find_prev_in_bucket] over the markers of one bucket:
    how many times [it] is advanced from [before_begin()].  The result
    [i] stands for the bucket iterator whose successor is the [i]-th
    marker, or [end()] when [i] is the length of the bucket. *)
Fixpoint scan (l : list Node) (key : KeyType) (b : list iterator) : option nat :=
  match b with
  | [] => Some 0
  | mk :: b' =>
      n ← succ_node mk l;
      if decide (key_of n = key) then Some 0 else S <$> scan l key b'
  end.

(** [find_prev_in_bucket], lines 24-30. *)
Definition find_prev_in_bucket (bucket_index : nat) (key : KeyType) : Method nat :=
  b <- bucket bucket_index;;
  l <- gets elements_;;
  defined (scan l key b).

(** [*it = x] for the bucket iterator [it = ++find_prev_in_bucket(..)] *)
Definition assign_marker (bucket_index i : nat) (x : iterator) : Method unit :=
  b <- bucket bucket_index;;
  match b !! i with
  | None => undefined
  | Some _ => modify (set_table (λ t, <[bucket_index := <[i := x]> b]> t))
  end.

(** [table_[bucket_index].push_front(x)] *)
Definition push_marker (bucket_index : nat) (x : iterator) : Method unit :=
  b <- bucket bucket_index;;
  modify (set_table (λ t, <[bucket_index := x :: b]> t)).

(** [table_[bucket_index].erase_after(it)] *)
Definition erase_marker_after (bucket_index i : nat) : Method unit :=
  b <- bucket bucket_index;;
  match b !! i with
  | None => undefined
  | Some _ => modify (set_table (λ t, <[bucket_index := delete i b]> t))
  end.

(** [table_.resize(n)] is stdpp's [resize n []]: the first [n] buckets,
    padded with empty ones. *)

(** The body of the loop of [rehash], at the node [it] points to. *)
Definition rehash_body (prev_size : nat) (n : Node) : Method unit :=
  h <- gets (λ m, hasher_ m (key_of n));;
  prev_bucket_index <- modulo h prev_size;;
  size <- gets (λ m, length (table_ m));;
  new_bucket_index <- modulo h size;;
  if decide (prev_bucket_index ≠ new_bucket_index) then
    jt <- find_prev_in_bucket prev_bucket_index (key_of n);;
    b <- bucket prev_bucket_index;;
    mk <- defined (b !! jt);;
    push_marker new_bucket_index mk;;;
    erase_marker_after prev_bucket_index jt
  else ret tt.

(** [rehash], lines 57-70. *)
Definition rehash : Method unit :=
  prev_size <- gets (λ m, length (table_ m));;
  modify (set_table (resize (2 * prev_size) []));;;
  l <- gets elements_;;
  for_each (rehash_body prev_size) l.

(** [find], lines 126-140 (both overloads have this body). *)
Definition find (key : KeyType) : Method iterator :=
  bucket_index <- bucket_index_of key;;
  i <- find_prev_in_bucket bucket_index key;;
  b <- bucket bucket_index;;
  match b !! i with
  | None => ret past_end
  | Some mk => l <- gets elements_;; defined (next_of mk l)
  end.

(** [at], lines 81-87. *)
Definition at_ (key : KeyType) : Method ValueType :=
  bucket_index <- bucket_index_of key;;
  i <- find_prev_in_bucket bucket_index key;;
  b <- bucket bucket_index;;
  match b !! i with
  | None => throw out_of_range
  | Some mk =>
      l <- gets elements_;;
      n <- defined (succ_node mk l);;
      ret (value_of n)
  end.

(** [insert], lines 142-162. *)
Definition insert (p : Element) : Method unit :=
  found <- find (fst p);;
  if decide (found ≠ past_end) then ret tt else
  size <- gets size_;;
  (if decide (0 < size) then
     l <- gets elements_;;
     first <- defined (head l);;
     bucket_index <- bucket_index_of (key_of first);;
     i <- find_prev_in_bucket bucket_index (key_of first);;
     modify (set_elements (push_front p));;;
     l' <- gets elements_;;
     assign_marker bucket_index i (begin_of l')
   else
     modify (set_elements (push_front p)));;;
  modify (set_size S);;;
  bucket_index <- bucket_index_of (fst p);;
  push_marker bucket_index before_begin;;;
  size <- gets size_;;
  n <- gets (λ m, length (table_ m));;
  if decide (n < size) then rehash else ret tt.

(** [operator[]], lines 72-79: the reference returned is to the [second]
    field of the node whose address is returned. *)
Definition index (key : KeyType) : Method nat :=
  bucket_index <- bucket_index_of key;;
  i <- find_prev_in_bucket bucket_index key;;
  b <- bucket bucket_index;;
  match b !! i with
  | Some mk =>
      l <- gets elements_;;
      n <- defined (succ_node mk l);;
      ret (addr n)
  | None =>
      insert (key, default_value);;;
      l <- gets elements_;;
      n <- defined (head l);;
      ret (addr n)
  end.

(** The body of the loop of [clear]. *)
Definition clear_body (n : Node) : Method unit :=
  bucket_index <- bucket_index_of (key_of n);;
  bucket bucket_index;;;
  modify (set_table (λ t, <[bucket_index := []]> t)).

(** [clear], lines 89-96. *)
Definition clear : Method unit :=
  l <- gets elements_;;
  for_each clear_body l;;;
  modify (set_elements (λ _, []));;;
  modify (set_size (λ _, 0)).

(** [erase], lines 164-183.  [mk] is [*next(it)], [jt] the node to
    delete and [njt] is [next(jt)]. *)
Definition erase (key : KeyType) : Method unit :=
  bucket_index <- bucket_index_of key;;
  i <- find_prev_in_bucket bucket_index key;;
  b <- bucket bucket_index;;
  match b !! i with
  | None => ret tt
  | Some mk =>
      modify (set_size pred);;;
      l <- gets elements_;;
      jt <- defined (next_of mk l);;
      njt <- defined (next_of jt l);;
      (if decide (njt ≠ past_end) then
         nx <- defined (node_of njt l);;
         tmp_bucket_index <- bucket_index_of (key_of nx);;
         kt <- find_prev_in_bucket tmp_bucket_index (key_of nx);;
         assign_marker tmp_bucket_index kt mk
       else ret tt);;;
      l1 <- defined (erase_after mk l);;
      modify (set_elements (λ _, l1));;;
      erase_marker_after bucket_index i
  end.

(** [explicit HashMap(Hash h)], lines 42-44. *)
Definition HashMap_new (h : KeyType → nat) : HashMap :=
  {| hasher_ := h; elements_ := []; table_ := resize 1 [] []; size_ := 0 |}.

(** The loop shared by the range constructor, the initializer-list
    constructor and [operator=]: [insert] of every element of a range. *)
Definition insert_range (its : list Element) : Method unit :=
  for_each insert its.

Definition size : Method nat := gets size_.
Definition empty : Method bool := gets (λ m, bool_decide (elements_ m = [])).
Definition hash_function : Method (KeyType → nat) := gets hasher_.

(** *** [operator=] on objects in memory

    [this == &other] compares addresses, so copy-assignment is a
    function of the two locations and of the store that holds the
    objects. *)

Abbreviation Store := (gmap nat HashMap).

(** Calling a member function on the object at [this]. *)
Definition call {A} (this : nat) (f : Method A) : M Store A :=
  λ σ, match σ !! this with
       | None => Undefined
       | Some m =>
           match f m with
           | Val a m' => Val a (<[this := m']> σ)
           | Throw e m' => Throw e (<[this := m']> σ)
           | Undefined => Undefined
           end
       end.

(** [operator=], lines 33-40. *)
Definition operator_assign (this other : nat) : M Store unit :=
  if decide (this = other) then ret tt else
  call this clear;;;
  src <- call other (gets elements_);;
  call this (insert_range (elem <$> src)).

(** What [operator=] does to the target when the source is another
    object whose elements are [src]. *)
Definition assign_from (src : list Node) : Method unit :=
  clear;;; insert_range (elem <$> src).

(** ** Observations and invariants *)

Definition addrs (l : list Node) : list nat := addr <$> l.
Definition keys (l : list Node) : list KeyType := key_of <$> l.

(** The (key, value) pairs a full iteration from [begin()] to [end()]
    yields. *)
Definition entries (m : HashMap) : list Element := elem <$> elements_ m.

Definition bucket_count (m : HashMap) : nat := length (table_ m).

(** The position of the last node of [l], or [p0] for an empty [l]. *)
Definition last_it (p0 : iterator) (l : list Node) : iterator :=
  match last l with
  | Some n => node_at (addr n)
  | None => p0
  end.

(** Every node of [l] paired with the position before it, [p0] being
    the position before the first node. *)
Fixpoint marks (p0 : iterator) (l : list Node) : list (iterator * Node) :=
  match l with
  | [] => []
  | n :: r => (p0, n) :: marks (node_at (addr n)) r
  end.

(** The markers bucket [j] has to hold when [g] assigns nodes to
    buckets. *)
Definition expected (g : Node → nat) (ms : list (iterator * Node)) (j : nat)
    : list iterator :=
  (filter (λ pn, g pn.2 = j) ms).*1.

Definition indexed (g : Node → nat) (ms : list (iterator * Node))
    (t : list (list iterator)) : Prop :=
  ∀ j b, t !! j = Some b → b ≡ₚ expected g ms j.

(** The bucket of a key, and of a node, in a table of [n] buckets. *)
Definition slot (h : KeyType → nat) (n : nat) (k : KeyType) : nat :=
  h k `mod` n.
Definition node_slot (h : KeyType → nat) (n : nat) (x : Node) : nat :=
  slot h n (key_of x).

Record wf (m : HashMap) : Prop := {
  wf_addrs : NoDup (addrs (elements_ m));
  wf_keys : NoDup (keys (elements_ m));
  wf_table : 0 < length (table_ m);
  wf_size : size_ m = length (elements_ m);
  wf_indexed :
    indexed (node_slot (hasher_ m) (length (table_ m)))
            (marks before_begin (elements_ m)) (table_ m)
}.

(** States reachable from a freshly constructed map by the public
    mutating member functions. *)
Inductive reachable : HashMap → Prop :=
| reachable_new h : reachable (HashMap_new h)
| reachable_insert m p m' :
    reachable m → insert p m = Val tt m' → reachable m'
| reachable_erase m k m' :
    reachable m → erase k m = Val tt m' → reachable m'
| reachable_index m k a m' :
    reachable m → index k m = Val a m' → reachable m'
| reachable_clear m m' :
    reachable m → clear m = Val tt m' → reachable m'
| reachable_rehash m m' :
    reachable m → rehash m = Val tt m' → reachable m'
| reachable_assign m other m' :
    reachable m → reachable other →
    assign_from (elements_ other) m = Val tt m' → reachable m'.

(** The number of markers, over all buckets, whose successor is the
    node at address [a]. *)
Definition markers_of (a : nat) (m : HashMap) : nat :=
  length (filter (λ mk, next_of mk (elements_ m) = Some (node_at a))
                 (concat (table_ m))).

(** ** What the member functions do, in terms of the fields *)

(** A key is in the map when one of the entries has it. *)
Definition contains (m : HashMap) (key : KeyType) : Prop :=
  key ∈ keys (elements_ m).

(** Every entry but those with the key [k], in iteration order. *)
Definition others (k : KeyType) (ps : list Element) : list Element :=
  filter (λ p, p.1 ≠ k) ps.

(** The contents a lookup can observe are those of the element list. *)
Definition preserved (m m' : HashMap) : Prop :=
  elements_ m' = elements_ m ∧ size_ m' = size_ m
  ∧ ∀ k, outcome (find k m') = outcome (find k m)
         ∧ outcome (at_ k m') = outcome (at_ k m).

(** What [insert] does to the element list. *)
Definition inserted (p : Element) (l : list Node) : list Node :=
  if decide (p.1 ∈ keys l) then l else push_front p l.

(** What a loop of [insert]s does to the element list. *)
Definition inserted_range (ps : list Element) (l : list Node) : list Node :=
  foldl (λ l p, inserted p l) l ps.

(** What [erase] does to the element list. *)
Definition erased (key : KeyType) (l : list Node) : list Node :=
  filter (λ n, key_of n ≠ key) l.

(** The table once the buckets of the nodes of [l] have been emptied. *)
Definition cleared (g : Node → nat) (l : list Node) (t : list (list iterator))
    : list (list iterator) :=
  foldl (λ t n, <[g n := []]> t) t l.

(** While [rehash] runs, the nodes already visited are indexed under the
    doubled bucket count and the others under the previous one. *)
Definition rehash_slot (h : KeyType → nat) (n : nat) (visited : list Node)
    (x : Node) : nat :=
  if decide (addr x ∈ addrs visited)
  then node_slot h (2 * n) x else node_slot h n x.

Definition load_ok (m : HashMap) : Prop := size_ m ≤ length (table_ m).

Definition doubling (m : HashMap) : Prop := ∃ k, length (table_ m) = 2 ^ k.

Record good (m : HashMap) : Prop := {
  good_wf : wf m;
  good_load : load_ok m;
  good_doubling : doubling m
}.

Definition grows (m m' : HashMap) : Prop :=
  hasher_ m' = hasher_ m ∧ length (table_ m) ≤ length (table_ m').

(** One call of a public mutating member function. *)
Inductive step : HashMap → HashMap → Prop :=
| step_insert m p m' : insert p m = Val tt m' → step m m'
| step_erase m k m' : erase k m = Val tt m' → step m m'
| step_index m k a m' : index k m = Val a m' → step m m'
| step_clear m m' : clear m = Val tt m' → step m m'
| step_rehash m m' : rehash m = Val tt m' → step m m'
| step_assign m other m' :
    reachable other → assign_from (elements_ other) m = Val tt m' → step m m'.

(** ** The rest of the public interface *)

(** [begin()], lines 110-116, and [end()], lines 118-124. *)
Definition begin_ : Method iterator := gets (λ m, begin_of (elements_ m)).
Definition end_ : Method iterator := ret past_end.

(** The range constructor, lines 46-50, and the initializer-list
    constructor, lines 52-55: the delegated constructor, then [insert] of
    every element.  [Val tt m] says that the object constructed is [m]. *)
Definition HashMap_range (its : list Element) (h : KeyType → nat)
    : Res HashMap unit :=
  insert_range its (HashMap_new h).

(** [for (auto it = m.begin(); it != m.end(); ++it)] collecting [*it]: the
    elements visited, [None] if the loop needs more than [fuel] rounds or
    steps on an iterator that points at no node. *)
Fixpoint iterate (fuel : nat) (it : iterator) (l : list Node)
    : option (list Element) :=
  if decide (it = past_end) then Some [] else
  match fuel with
  | 0 => None
  | S fuel' =>
      n ← node_of it l;
      it' ← next_of it l;
      cons (elem n) <$> iterate fuel' it' l
  end.

(** The first pair with the key [k] in a range. *)
Definition first_with (k : KeyType) (ps : list Element) : option Element :=
  List.find (λ p, bool_decide (p.1 = k)) ps.

(** ** Positions in the element list *)

Lemma last_it_cons p0 x l :
  last_it p0 (x :: l) = last_it (node_at (addr x)) l.
Proof. unfold last_it. rewrite last_cons. by destruct (last l). Qed.

Lemma last_it_snoc p0 l x : last_it p0 (l ++ [x]) = node_at (addr x).
Proof. unfold last_it. by rewrite last_snoc. Qed.

Lemma marks_app p0 l1 l2 :
  marks p0 (l1 ++ l2) = marks p0 l1 ++ marks (last_it p0 l1) l2.
Proof.
  revert p0. induction l1 as [|x l1 IH]; intros p0; [done|].
  simpl. by rewrite IH, last_it_cons.
Qed.

Lemma marks_snd p0 l : (marks p0 l).*2 = l.
Proof.
  revert p0. induction l as [|x l IH]; intros p0; [done|].
  simpl. by rewrite IH.
Qed.

Lemma elem_of_marks p0 l p n :
  (p, n) ∈ marks p0 l ↔ ∃ l1 l2, l = l1 ++ n :: l2 ∧ p = last_it p0 l1.
Proof.
  split.
  - revert p0. induction l as [|x l IH]; intros p0; simpl.
    + by intros ?%elem_of_nil.
    + intros [Heq|Hin]%elem_of_cons.
      * injection Heq as -> ->. by exists [], l.
      * destruct (IH _ Hin) as (l1 & l2 & -> & ->).
        exists (x :: l1), l2. by rewrite last_it_cons.
  - intros (l1 & l2 & -> & ->). rewrite marks_app. simpl.
    apply elem_of_app. right. apply elem_of_cons. by left.
Qed.

Lemma marks_node p0 l p n : (p, n) ∈ marks p0 l → n ∈ l.
Proof.
  intros (l1 & l2 & -> & _)%elem_of_marks.
  apply elem_of_app. right. apply elem_of_cons. by left.
Qed.

Lemma node_marked p0 l n : n ∈ l → ∃ p, (p, n) ∈ marks p0 l.
Proof.
  intros (l1 & l2 & ->)%list_elem_of_split.
  exists (last_it p0 l1). apply elem_of_marks. by exists l1, l2.
Qed.

Lemma marks_fst_elem p0 l p :
  p ∈ (marks p0 l).*1 → p = p0 ∨ p ∈ node_at <$> addrs l.
Proof.
  revert p0. induction l as [|x l IH]; intros p0; simpl.
  - by intros ?%elem_of_nil.
  - intros [->|Hin]%elem_of_cons; [by left|].
    right. destruct (IH _ Hin) as [->|?].
    + apply elem_of_cons. by left.
    + apply elem_of_cons. by right.
Qed.

Lemma marks_fst_NoDup p0 l :
  NoDup (addrs l) → p0 ∉ node_at <$> addrs l → NoDup (marks p0 l).*1.
Proof.
  revert p0. induction l as [|x l IH]; intros p0; simpl.
  - constructor.
  - intros [Hx Hl]%NoDup_cons Hp0. rewrite not_elem_of_cons in Hp0.
    destruct Hp0 as [Hne Hp0].
    assert (Hfresh : node_at (addr x) ∉ node_at <$> addrs l).
    { intros (a & [= <-] & Ha)%list_elem_of_fmap. done. }
    apply NoDup_cons. split; [|by apply IH].
    intros [->|?]%marks_fst_elem; done.
Qed.

Lemma before_begin_not_node (l : list nat) : before_begin ∉ node_at <$> l.
Proof. by intros (a & ? & _)%list_elem_of_fmap. Qed.

Lemma after_node_app a l1 l2 :
  a ∉ addrs l1 → after_node a (l1 ++ l2) = after_node a l2.
Proof.
  induction l1 as [|x l1 IH]; [done|].
  intros [Hne Hin]%not_elem_of_cons. simpl.
  destruct (decide (addr x = a)); [done|]. by apply IH.
Qed.

Lemma after_last_it l1 l2 :
  NoDup (addrs (l1 ++ l2)) →
  after (last_it before_begin l1) (l1 ++ l2) = Some l2.
Proof.
  destruct l1 as [|y l1 _] using rev_ind; [done|].
  rewrite last_it_snoc, <-(assoc_L (++)). simpl.
  unfold addrs. rewrite fmap_app. intros [_ [Hdisj _]]%NoDup_app.
  rewrite after_node_app.
  - simpl. by rewrite decide_True.
  - intros Hin. apply (Hdisj _ Hin). simpl. apply elem_of_cons. by left.
Qed.

Lemma marks_after l p n :
  NoDup (addrs l) → (p, n) ∈ marks before_begin l →
  ∃ r, after p l = Some (n :: r).
Proof.
  intros Hnd (l1 & l2 & -> & ->)%elem_of_marks.
  exists l2. by apply after_last_it.
Qed.

Lemma marks_succ_node l p n :
  NoDup (addrs l) → (p, n) ∈ marks before_begin l → succ_node p l = Some n.
Proof.
  intros Hnd Hin. destruct (marks_after _ _ _ Hnd Hin) as [r Hr].
  unfold succ_node. by rewrite Hr.
Qed.

Lemma marks_next_of l p n :
  NoDup (addrs l) → (p, n) ∈ marks before_begin l →
  next_of p l = Some (node_at (addr n)).
Proof.
  intros Hnd Hin. destruct (marks_after _ _ _ Hnd Hin) as [r Hr].
  unfold next_of. by rewrite Hr.
Qed.

(** A marker determines its node, and a node its marker. *)
Lemma marks_fun l p n n' :
  NoDup (addrs l) →
  (p, n) ∈ marks before_begin l → (p, n') ∈ marks before_begin l → n = n'.
Proof.
  intros Hnd H1%marks_succ_node H2%marks_succ_node; [|done..]. congruence.
Qed.

Lemma marks_NoDup l : NoDup (addrs l) → NoDup (marks before_begin l).*1.
Proof. intros. apply marks_fst_NoDup; [done|apply before_begin_not_node]. Qed.

Lemma marks_inj l p p' n :
  NoDup (addrs l) →
  (p, n) ∈ marks before_begin l → (p', n) ∈ marks before_begin l → p = p'.
Proof.
  intros Hnd (l1 & l2 & -> & ->)%elem_of_marks (k1 & k2 & Heq & ->)%elem_of_marks.
  assert (Hl : NoDup (l1 ++ n :: l2)) by by eapply NoDup_fmap_1.
  assert (l1 = k1) as ->; [|done].
  clear Hnd. revert k1 Heq Hl. induction l1 as [|x l1 IH]; intros [|y k1]; simpl.
  - done.
  - intros [= <- ->] [Hn _]%NoDup_cons. destruct Hn.
    apply elem_of_app. right. apply elem_of_cons. by left.
  - intros [= -> <-] [Hn _]%NoDup_cons. destruct Hn.
    apply elem_of_app. right. apply elem_of_cons. by left.
  - intros [= -> Heq] [_ Hl]%NoDup_cons. f_equal. by apply IH.
Qed.

Lemma key_inj l n n' :
  NoDup (keys l) → n ∈ l → n' ∈ l → key_of n = key_of n' → n = n'.
Proof.
  induction l as [|x l IH]; simpl.
  - by intros _ ?%elem_of_nil.
  - intros [Hx Hl]%NoDup_cons [->|Hn]%elem_of_cons [->|Hn']%elem_of_cons Hk.
    + done.
    + destruct Hx. rewrite Hk. by apply list_elem_of_fmap_2.
    + destruct Hx. rewrite <-Hk. by apply list_elem_of_fmap_2.
    + by apply IH.
Qed.

(** ** Scanning a bucket *)

Lemma scan_stop l key b i mk n :
  b !! i = Some mk → succ_node mk l = Some n → key_of n = key →
  (∀ j mk', j < i → b !! j = Some mk' →
     ∃ n', succ_node mk' l = Some n' ∧ key_of n' ≠ key) →
  scan l key b = Some i.
Proof.
  revert i. induction b as [|m0 b IH]; intros i; [done|].
  destruct i as [|i]; simpl.
  - intros [= ->] -> Hk _. simpl. by rewrite decide_True.
  - intros Hi Hs Hk Hbefore.
    destruct (Hbefore 0 m0) as (n' & -> & Hne); [lia|done|]. simpl.
    rewrite decide_False by done.
    rewrite (IH i); [done..|].
    intros j mk' ? ?. apply (Hbefore (S j)); [lia|done].
Qed.

Lemma scan_end l key b :
  (∀ mk, mk ∈ b → ∃ n, succ_node mk l = Some n ∧ key_of n ≠ key) →
  scan l key b = Some (length b).
Proof.
  induction b as [|m0 b IH]; intros Hall; [done|]. simpl.
  destruct (Hall m0) as (n & -> & Hne); [apply elem_of_cons; by left|].
  simpl. rewrite decide_False by done. rewrite IH; [done|].
  intros mk Hmk. apply Hall, elem_of_cons. by right.
Qed.

Section scan_bucket.
Variable l : list Node.
Variable b : list iterator.
Hypothesis Haddrs : NoDup (addrs l).
Hypothesis Hkeys : NoDup (keys l).
Hypothesis Hmarkers : ∀ mk, mk ∈ b → mk ∈ (marks before_begin l).*1.
Hypothesis Hdistinct : NoDup b.

Lemma bucket_marker mk :
  mk ∈ b → ∃ n, (mk, n) ∈ marks before_begin l ∧ succ_node mk l = Some n.
Proof using Haddrs Hmarkers.
  intros ([p n] & -> & Hin)%Hmarkers%list_elem_of_fmap. simpl.
  exists n. split; [done|]. by apply marks_succ_node.
Qed.

Lemma scan_marker p n :
  (p, n) ∈ marks before_begin l → p ∈ b →
  ∃ i, scan l (key_of n) b = Some i ∧ b !! i = Some p.
Proof using Haddrs Hkeys Hmarkers Hdistinct.
  intros Hpn [i Hi]%list_elem_of_lookup. exists i. split; [|done].
  apply (scan_stop _ _ _ _ p n); [done|by apply marks_succ_node|done|].
  intros j mk' Hlt Hj.
  destruct (bucket_marker mk') as (n' & Hin' & Hs').
  { by eapply list_elem_of_lookup_2. }
  exists n'. split; [done|]. intros Hk.
  assert (n' = n) as ->.
  { eapply key_inj; [done|by eapply marks_node..|done]. }
  assert (mk' = p) as -> by by eapply marks_inj.
  assert (j = i) by by eapply NoDup_lookup. lia.
Qed.

Lemma scan_no_marker key :
  (∀ p n, (p, n) ∈ marks before_begin l → key_of n = key → p ∉ b) →
  scan l key b = Some (length b).
Proof using Haddrs Hmarkers.
  intros Hnone. apply scan_end. intros mk Hmk.
  destruct (bucket_marker mk Hmk) as (n & Hin & Hs).
  exists n. split; [done|]. intros Hk. by eapply Hnone.
Qed.
End scan_bucket.

(** ** Updating a bucket in place *)

Lemma insert_delete_Permutation {A} (b : list A) i q :
  i < length b → <[i:=q]> b ≡ₚ q :: delete i b.
Proof.
  revert i. induction b as [|x b IH]; intros [|i] Hlt; simpl in *; try lia.
  - done.
  - rewrite (IH i) by lia. apply Permutation_swap.
Qed.

Lemma assign_Permutation {A} (b : list A) i p q E :
  b !! i = Some p → b ≡ₚ p :: E → <[i:=q]> b ≡ₚ q :: E.
Proof.
  intros Hi Hb. rewrite insert_delete_Permutation by by eapply lookup_lt_Some.
  f_equiv. rewrite (delete_Permutation _ _ _ Hi) in Hb.
  by apply Permutation_cons_inv in Hb.
Qed.

Lemma erase_Permutation {A} (b : list A) i p E :
  b !! i = Some p → b ≡ₚ p :: E → delete i b ≡ₚ E.
Proof.
  intros Hi Hb. rewrite (delete_Permutation _ _ _ Hi) in Hb.
  by apply Permutation_cons_inv in Hb.
Qed.

(** ** The markers a bucket has to hold *)

Lemma expected_cons g p n ms j :
  expected g ((p, n) :: ms) j =
  if decide (g n = j) then p :: expected g ms j else expected g ms j.
Proof.
  unfold expected. rewrite filter_cons. simpl. by destruct (decide (g n = j)).
Qed.

Lemma expected_app g ms1 ms2 j :
  expected g (ms1 ++ ms2) j = expected g ms1 j ++ expected g ms2 j.
Proof. unfold expected. by rewrite filter_app, fmap_app. Qed.

Lemma elem_of_expected g ms j p :
  p ∈ expected g ms j ↔ ∃ n, (p, n) ∈ ms ∧ g n = j.
Proof.
  unfold expected. rewrite list_elem_of_fmap. split.
  - intros ([p' n] & -> & [Hg Hin]%list_elem_of_filter). by exists n.
  - intros (n & Hin & Hg). exists (p, n). split; [done|].
    by apply list_elem_of_filter.
Qed.

Lemma expected_empty g ms j :
  (∀ p n, (p, n) ∈ ms → g n ≠ j) → expected g ms j = [].
Proof.
  intros Hne. destruct (expected g ms j) as [|p E] eqn:HE; [done|].
  assert (Hp : p ∈ expected g ms j) by (rewrite HE; apply elem_of_cons; by left).
  apply elem_of_expected in Hp as (n & Hin & Hg). by destruct (Hne p n).
Qed.

Lemma expected_ext g g' ms j :
  (∀ p n, (p, n) ∈ ms → g n = g' n) → expected g ms j = expected g' ms j.
Proof.
  induction ms as [|[p n] ms IH]; intros Hg; [done|].
  rewrite !expected_cons, (Hg p n) by (apply elem_of_cons; by left).
  rewrite IH; [done|]. intros p' n' Hin. apply (Hg p'), elem_of_cons. by right.
Qed.

Lemma expected_NoDup g ms j : NoDup ms.*1 → NoDup (expected g ms j).
Proof.
  induction ms as [|[p n] ms IH]; [done|]. simpl.
  intros [Hp Hms]%NoDup_cons. rewrite expected_cons.
  destruct (decide (g n = j)); [|by apply IH].
  apply NoDup_cons. split; [|by apply IH].
  intros (n' & Hin & _)%elem_of_expected. apply Hp.
  by apply (list_elem_of_fmap_2 fst _ (p, n')).
Qed.

(** ** A table that indexes the element list *)

Section table.
Variable l : list Node.
Variable t : list (list iterator).
Variable g : Node → nat.
Hypothesis Haddrs : NoDup (addrs l).
Hypothesis Hkeys : NoDup (keys l).
Hypothesis Hidx : indexed g (marks before_begin l) t.

Lemma table_bucket_NoDup j b : t !! j = Some b → NoDup b.
Proof using Haddrs Hidx.
  intros Hj. rewrite (Hidx _ _ Hj). by apply expected_NoDup, marks_NoDup.
Qed.

Lemma table_bucket_markers j b mk :
  t !! j = Some b → mk ∈ b → mk ∈ (marks before_begin l).*1.
Proof using Hidx.
  intros Hj Hmk. rewrite (Hidx _ _ Hj) in Hmk.
  apply elem_of_expected in Hmk as (n & Hin & _).
  by apply (list_elem_of_fmap_2 fst _ (mk, n)).
Qed.

Lemma table_scan_present p n b :
  (p, n) ∈ marks before_begin l → t !! g n = Some b →
  ∃ i, scan l (key_of n) b = Some i ∧ b !! i = Some p.
Proof using Haddrs Hkeys Hidx.
  intros Hpn Hb. apply scan_marker; try done.
  - intros mk. by apply table_bucket_markers with (g n).
  - by apply table_bucket_NoDup with (g n).
  - rewrite (Hidx _ _ Hb). apply elem_of_expected. by exists n.
Qed.

Lemma table_scan_absent key j b :
  key ∉ keys l → t !! j = Some b → scan l key b = Some (length b).
Proof using Haddrs Hidx.
  intros Hkey Hb. apply scan_no_marker; try done.
  - intros mk. by apply table_bucket_markers with j.
  - intros p n Hpn <-. destruct Hkey.
    apply list_elem_of_fmap_2. by eapply marks_node.
Qed.
End table.

(** ** Running the member functions *)

Lemma bind_Val {St A B} (c : M St A) (k : A → M St B) s a s' :
  c s = Val a s' → bind c k s = k a s'.
Proof. unfold bind. by intros ->. Qed.

Lemma bind_Throw {St A B} (c : M St A) (k : A → M St B) s e s' :
  c s = Throw e s' → bind c k s = Throw e s'.
Proof. unfold bind. by intros ->. Qed.

Lemma modulo_run a b (m : HashMap) : 0 < b → modulo a b m = Val (a `mod` b) m.
Proof. destruct b; [lia|done]. Qed.

Lemma bucket_index_of_run key m :
  0 < length (table_ m) →
  bucket_index_of key m = Val (slot (hasher_ m) (length (table_ m)) key) m.
Proof. intros Hn. unfold bucket_index_of, bind, gets. by apply modulo_run. Qed.

Lemma bucket_run j b m : table_ m !! j = Some b → bucket j m = Val b m.
Proof. intros Hj. unfold bucket, bind, gets. by rewrite Hj. Qed.

Lemma find_prev_in_bucket_run j key b i m :
  table_ m !! j = Some b → scan (elements_ m) key b = Some i →
  find_prev_in_bucket j key m = Val i m.
Proof.
  intros Hj Hi. unfold find_prev_in_bucket.
  rewrite (bind_Val _ _ _ _ _ (bucket_run _ _ _ Hj)).
  unfold bind, gets. by rewrite Hi.
Qed.

Lemma slot_lt h n k : 0 < n → slot h n k < n.
Proof. intros. unfold slot. apply Nat.mod_upper_bound. lia. Qed.

Lemma slot_bucket h (t : list (list iterator)) k :
  0 < length t → ∃ b, t !! slot h (length t) k = Some b.
Proof. intros Hn. apply lookup_lt_is_Some_2. by apply slot_lt. Qed.

Ltac run H := rewrite (bind_Val _ _ _ _ _ H).

Section lookup.
Variable m : HashMap.
Hypothesis Hwf : wf m.

#[local] Abbreviation home key := (slot (hasher_ m) (length (table_ m)) key).

Lemma wf_bucket key : ∃ b, table_ m !! home key = Some b.
Proof using Hwf. apply slot_bucket, Hwf. Qed.

Lemma lookup_absent key b :
  key ∉ keys (elements_ m) → table_ m !! home key = Some b →
  find_prev_in_bucket (home key) key m = Val (length b) m.
Proof using Hwf.
  intros Hkey Hb. apply find_prev_in_bucket_run with b; [done|].
  eapply table_scan_absent; [apply Hwf..|done|done].
Qed.

Lemma lookup_present p n b :
  (p, n) ∈ marks before_begin (elements_ m) →
  table_ m !! home (key_of n) = Some b →
  ∃ i, find_prev_in_bucket (home (key_of n)) (key_of n) m = Val i m
       ∧ b !! i = Some p.
Proof using Hwf.
  intros Hpn Hb.
  destruct (table_scan_present _ _ _ (wf_addrs _ Hwf) (wf_keys _ Hwf)
              (wf_indexed _ Hwf) p n b Hpn Hb) as (i & Hscan & Hi).
  exists i. split; [|done]. by apply find_prev_in_bucket_run with b.
Qed.

Lemma find_absent key :
  key ∉ keys (elements_ m) → find key m = Val past_end m.
Proof using Hwf.
  intros Hkey. destruct (wf_bucket key) as [b Hb]. unfold find.
  run (bucket_index_of_run key m (wf_table _ Hwf)).
  run (lookup_absent key b Hkey Hb). run (bucket_run _ _ _ Hb).
  by rewrite lookup_ge_None_2.
Qed.

Lemma find_present n :
  n ∈ elements_ m → find (key_of n) m = Val (node_at (addr n)) m.
Proof using Hwf.
  intros [p Hpn]%(node_marked before_begin).
  destruct (wf_bucket (key_of n)) as [b Hb].
  destruct (lookup_present p n b Hpn Hb) as (i & Hrun & Hi). unfold find.
  run (bucket_index_of_run (key_of n) m (wf_table _ Hwf)).
  run Hrun. run (bucket_run _ _ _ Hb). rewrite Hi.
  unfold bind, gets. by rewrite (marks_next_of _ p n) by (done || apply Hwf).
Qed.

Lemma at_absent key :
  key ∉ keys (elements_ m) → at_ key m = Throw out_of_range m.
Proof using Hwf.
  intros Hkey. destruct (wf_bucket key) as [b Hb]. unfold at_.
  run (bucket_index_of_run key m (wf_table _ Hwf)).
  run (lookup_absent key b Hkey Hb). run (bucket_run _ _ _ Hb).
  by rewrite lookup_ge_None_2.
Qed.

Lemma at_present n :
  n ∈ elements_ m → at_ (key_of n) m = Val (value_of n) m.
Proof using Hwf.
  intros [p Hpn]%(node_marked before_begin).
  destruct (wf_bucket (key_of n)) as [b Hb].
  destruct (lookup_present p n b Hpn Hb) as (i & Hrun & Hi). unfold at_.
  run (bucket_index_of_run (key_of n) m (wf_table _ Hwf)).
  run Hrun. run (bucket_run _ _ _ Hb). rewrite Hi.
  unfold bind, gets. by rewrite (marks_succ_node _ p n) by (done || apply Hwf).
Qed.
End lookup.

(** ** How the table follows the element list *)

Lemma expected_Permutation g ms ms' j :
  ms ≡ₚ ms' → expected g ms j ≡ₚ expected g ms' j.
Proof. intros Hms. unfold expected. by rewrite Hms. Qed.

Lemma indexed_Permutation g ms ms' t :
  ms ≡ₚ ms' → indexed g ms t → indexed g ms' t.
Proof.
  intros Hms Hidx j b Hj.
  rewrite (Hidx _ _ Hj). by apply expected_Permutation.
Qed.

Lemma indexed_ext g g' ms t :
  (∀ p n, (p, n) ∈ ms → g n = g' n) → indexed g ms t → indexed g' ms t.
Proof.
  intros Hg Hidx j b Hj. rewrite (Hidx _ _ Hj). by rewrite (expected_ext g g').
Qed.

(** A new node gets a marker at the front of its bucket. *)
Lemma indexed_add g ms t p x b :
  indexed g ms t → t !! g x = Some b →
  indexed g ((p, x) :: ms) (<[g x := p :: b]> t).
Proof.
  intros Hidx Hb j b' Hj. rewrite expected_cons.
  rewrite list_lookup_insert in Hj.
  destruct (decide (g x = j)) as [<-|Hne].
  - rewrite decide_True in Hj by eauto using lookup_lt_Some.
    injection Hj as <-. f_equiv. by apply Hidx.
  - rewrite decide_False in Hj by tauto. by apply Hidx.
Qed.

(** The marker of a node is overwritten in place. *)
Lemma indexed_reassign g ms t p q y b i :
  indexed g ((p, y) :: ms) t → t !! g y = Some b → b !! i = Some p →
  indexed g ((q, y) :: ms) (<[g y := <[i := q]> b]> t).
Proof.
  intros Hidx Hb Hi j b' Hj. rewrite expected_cons.
  rewrite list_lookup_insert in Hj.
  destruct (decide (g y = j)) as [<-|Hne].
  - rewrite decide_True in Hj by eauto using lookup_lt_Some.
    injection Hj as <-. apply assign_Permutation with p; [done|].
    rewrite (Hidx _ _ Hb), expected_cons. by rewrite decide_True.
  - rewrite decide_False in Hj by tauto.
    rewrite (Hidx _ _ Hj), expected_cons. by rewrite decide_False.
Qed.

(** The marker of a node is erased from its bucket. *)
Lemma indexed_remove g ms t p x b i :
  indexed g ((p, x) :: ms) t → t !! g x = Some b → b !! i = Some p →
  indexed g ms (<[g x := delete i b]> t).
Proof.
  intros Hidx Hb Hi j b' Hj. rewrite list_lookup_insert in Hj.
  destruct (decide (g x = j)) as [<-|Hne].
  - rewrite decide_True in Hj by eauto using lookup_lt_Some.
    injection Hj as <-. apply erase_Permutation with p; [done|].
    rewrite (Hidx _ _ Hb), expected_cons. by rewrite decide_True.
  - rewrite decide_False in Hj by tauto.
    rewrite (Hidx _ _ Hj), expected_cons. by rewrite decide_False.
Qed.

Lemma bind_assoc {St A B C} (c : M St A) (k1 : A → M St B) (k2 : B → M St C) s :
  bind (bind c k1) k2 s = bind c (λ a, bind (k1 a) k2) s.
Proof. unfold bind. by destruct (c s). Qed.

Lemma bind_gets {St A B} (f : St → A) (k : A → M St B) s :
  bind (gets f) k s = k (f s) s.
Proof. done. Qed.

Lemma bind_modify {St B} (f : St → St) (k : unit → M St B) s :
  bind (modify f) k s = k tt (f s).
Proof. done. Qed.

Lemma bind_ret {St A B} (a : A) (k : A → M St B) s : bind (ret a) k s = k a s.
Proof. done. Qed.

Ltac steps :=
  repeat first [rewrite bind_assoc | rewrite bind_gets
               | rewrite bind_modify | rewrite bind_ret].

Lemma assign_marker_run j i x b mk m :
  table_ m !! j = Some b → b !! i = Some mk →
  assign_marker j i x m = Val tt (set_table (λ t, <[j := <[i := x]> b]> t) m).
Proof.
  intros Hj Hi. unfold assign_marker. run (bucket_run _ _ _ Hj). by rewrite Hi.
Qed.

Lemma push_marker_run j x b m :
  table_ m !! j = Some b →
  push_marker j x m = Val tt (set_table (λ t, <[j := x :: b]> t) m).
Proof. intros Hj. unfold push_marker. by run (bucket_run _ _ _ Hj). Qed.

Lemma erase_marker_after_run j i b mk m :
  table_ m !! j = Some b → b !! i = Some mk →
  erase_marker_after j i m = Val tt (set_table (λ t, <[j := delete i b]> t) m).
Proof.
  intros Hj Hi. unfold erase_marker_after. run (bucket_run _ _ _ Hj).
  by rewrite Hi.
Qed.

Lemma addr_le_max l a : a ∈ addrs l → a ≤ foldr Nat.max 0 (addrs l).
Proof.
  induction l as [|x l IH]; simpl.
  - by intros ?%elem_of_nil.
  - intros [->|Hin]%elem_of_cons; [lia|]. specialize (IH Hin). lia.
Qed.

Lemma fresh_addr_fresh l : fresh_addr l ∉ addrs l.
Proof. intros Hin%addr_le_max. unfold fresh_addr, addrs in *. lia. Qed.

(** ** [insert] *)

(** [insert] of a key that is absent: the state [m1] before the load
    factor is checked is well formed, with the new node in front. *)
Lemma insert_absent p m :
  wf m → p.1 ∉ keys (elements_ m) →
  ∃ m1, wf m1 ∧ hasher_ m1 = hasher_ m
        ∧ elements_ m1 = push_front p (elements_ m)
        ∧ length (table_ m1) = length (table_ m)
        ∧ insert p m =
          if decide (length (table_ m1) < size_ m1) then rehash m1 else Val tt m1.
Proof.
  intros Hwf Hkey. unfold insert. run (find_absent m Hwf _ Hkey).
  rewrite decide_False by (by intros ?).
  pose (g := node_slot (hasher_ m) (length (table_ m))).
  pose (x := {| addr := fresh_addr (elements_ m); elem := p |}).
  assert (Haddrs' : NoDup (addrs (push_front p (elements_ m)))).
  { simpl. apply NoDup_cons. split; [apply fresh_addr_fresh|apply Hwf]. }
  assert (Hkeys' : NoDup (keys (push_front p (elements_ m)))).
  { simpl. apply NoDup_cons. split; [done|apply Hwf]. }
  destruct (elements_ m) as [|y r] eqn:Hl.
  - (* the list was empty *)
    destruct (slot_bucket (hasher_ m) (table_ m) p.1 (wf_table _ Hwf)) as [b Hb].
    eexists (set_table (λ t, <[g x := before_begin :: b]> t)
               (set_size S (set_elements (push_front p) m))).
    split; [|split; [done|split; [by simpl; rewrite Hl|split]]].
    + constructor; simpl; rewrite ?Hl, ?length_insert; try done.
      * apply Hwf.
      * by rewrite (wf_size _ Hwf), Hl.
      * apply (indexed_add g [] _ before_begin x b); [|done].
        generalize (wf_indexed _ Hwf). by rewrite Hl.
    + simpl. by rewrite length_insert.
    + steps. rewrite (wf_size _ Hwf), Hl. simpl length.
      rewrite decide_False by lia. steps.
      erewrite bind_Val by (apply bucket_index_of_run; simpl; apply Hwf).
      erewrite bind_Val by (apply push_marker_run; simpl; exact Hb).
      steps. unfold ret. subst g x. unfold node_slot, key_of. simpl.
      rewrite ?Hl, ?length_insert. by destruct (decide _).
  - (* the first node [y] gets the new node as its predecessor *)
    destruct (slot_bucket (hasher_ m) (table_ m) (key_of y) (wf_table _ Hwf))
      as [b0 Hb0].
    destruct (lookup_present m Hwf before_begin y b0) as (i & Hrun & Hi);
      [rewrite Hl; apply elem_of_cons; by left|done|].
    pose (t1 := <[g y := <[i := node_at (addr x)]> b0]> (table_ m)).
    destruct (slot_bucket (hasher_ m) t1 p.1) as [b Hb].
    { unfold t1. rewrite length_insert. apply Hwf. }
    unfold t1 in Hb. rewrite length_insert in Hb.
    eexists (set_table (λ t, <[g x := before_begin :: b]> t)
               (set_size S
                  (set_table (λ t, <[g y := <[i := node_at (addr x)]> b0]> t)
                     (set_elements (push_front p) m)))).
    split; [|split; [done|split; [by simpl; rewrite Hl|split]]].
    + constructor; simpl; rewrite ?Hl, ?length_insert; try done.
      * apply Hwf.
      * by rewrite (wf_size _ Hwf), Hl.
      * apply (indexed_add g _ _ before_begin x b); [|done].
        apply (indexed_reassign g _ _ before_begin); [|done..].
        generalize (wf_indexed _ Hwf). by rewrite Hl.
    + simpl. by rewrite !length_insert.
    + steps. rewrite (wf_size _ Hwf), Hl. simpl length.
      rewrite decide_True by lia. steps. rewrite Hl.
      change (head (y :: r)) with (Some y). unfold defined. steps.
      run (bucket_index_of_run (key_of y) m (wf_table _ Hwf)). steps.
      run Hrun. steps.
      erewrite bind_Val by (eapply assign_marker_run; simpl; eassumption).
      steps.
      erewrite bind_Val by (apply bucket_index_of_run; simpl;
                           rewrite length_insert; apply Hwf).
      erewrite bind_Val by (apply push_marker_run; simpl;
                           rewrite Hl, length_insert; exact Hb).
      steps. unfold ret. subst g x. unfold node_slot, key_of. simpl.
      rewrite ?Hl, ?length_insert. by destruct (decide _).
Qed.

Lemma insert_present p m :
  wf m → p.1 ∈ keys (elements_ m) → insert p m = Val tt m.
Proof.
  intros Hwf (n & Hk & Hn)%list_elem_of_fmap. unfold insert.
  rewrite Hk. run (find_present m Hwf n Hn). by rewrite decide_True.
Qed.

(** ** [rehash] *)

Lemma indexed_move g g' ms t p x b i bn :
  NoDup ms.*2 → (p, x) ∈ ms → indexed g ms t →
  (∀ p' n', (p', n') ∈ ms → n' ≠ x → g' n' = g n') →
  g x ≠ g' x →
  t !! g x = Some b → b !! i = Some p → t !! g' x = Some bn →
  indexed g' ms (<[g x := delete i b]> (<[g' x := p :: bn]> t)).
Proof.
  intros Hnd [k Hk]%elem_of_Permutation Hidx Hsame Hne Hb Hi Hbn.
  rewrite Hk in Hnd. simpl in Hnd. apply NoDup_cons in Hnd as [Hx _].
  apply (indexed_Permutation _ ((p, x) :: k)); [done|].
  rewrite list_insert_insert_ne by done.
  apply indexed_add; [|by rewrite list_lookup_insert_ne].
  apply (indexed_ext g).
  - intros p' n' Hin. symmetry. apply (Hsame p').
    + rewrite Hk. apply elem_of_cons. by right.
    + intros ->. apply Hx. by apply (list_elem_of_fmap_2 snd _ (p', x)).
  - apply indexed_remove with p; [|done..].
    by apply (indexed_Permutation _ ms).
Qed.

Lemma rehash_slot_visited h n l x :
  addr x ∈ addrs l → rehash_slot h n l x = node_slot h (2 * n) x.
Proof. intros. unfold rehash_slot. by rewrite decide_True. Qed.

Lemma rehash_slot_pending h n l x :
  addr x ∉ addrs l → rehash_slot h n l x = node_slot h n x.
Proof. intros. unfold rehash_slot. by rewrite decide_False. Qed.

Lemma rehash_slot_snoc h n l x y :
  addr y ≠ addr x → rehash_slot h n (l ++ [x]) y = rehash_slot h n l y.
Proof.
  intros Hne. unfold rehash_slot, addrs. rewrite fmap_app. simpl.
  destruct (decide (addr y ∈ addr <$> l)) as [Hin|Hin].
  - rewrite decide_True; [done|]. apply elem_of_app. by left.
  - rewrite decide_False; [done|].
    intros [?|[?|?%elem_of_nil]%elem_of_cons]%elem_of_app; done.
Qed.

Lemma addr_inj l x y :
  NoDup (addrs l) → x ∈ l → y ∈ l → addr x = addr y → x = y.
Proof.
  induction l as [|z l IH]; simpl.
  - by intros _ ?%elem_of_nil.
  - intros [Hz Hl]%NoDup_cons [->|Hx]%elem_of_cons [->|Hy]%elem_of_cons Ha.
    + done.
    + destruct Hz. rewrite Ha. by apply list_elem_of_fmap_2.
    + destruct Hz. rewrite <-Ha. by apply list_elem_of_fmap_2.
    + by apply IH.
Qed.

Lemma rehash_loop_spec n l1 l2 m :
  elements_ m = l1 ++ l2 →
  NoDup (addrs (elements_ m)) → NoDup (keys (elements_ m)) →
  0 < n → length (table_ m) = 2 * n →
  indexed (rehash_slot (hasher_ m) n l1)
          (marks before_begin (elements_ m)) (table_ m) →
  ∃ t', for_each (rehash_body n) l2 m = Val tt (set_table (λ _, t') m)
        ∧ length t' = 2 * n
        ∧ indexed (node_slot (hasher_ m) (2 * n))
                  (marks before_begin (elements_ m)) t'.
Proof.
  revert l1 m. induction l2 as [|x r IH]; intros l1 m Hl Haddrs Hkeys Hn Hlen Hidx.
  - exists (table_ m). split; [by destruct m|]. split; [done|].
    apply (indexed_ext (rehash_slot (hasher_ m) n l1)); [|done].
    intros p y Hy%marks_node. apply rehash_slot_visited.
    rewrite Hl, app_nil_r in Hy. by apply list_elem_of_fmap_2.
  - assert (Hx : x ∈ elements_ m).
    { rewrite Hl. apply elem_of_app. right. apply elem_of_cons. by left. }
    assert (Hfresh : addr x ∉ addrs l1).
    { rewrite Hl in Haddrs. unfold addrs in Haddrs. rewrite fmap_app in Haddrs.
      apply NoDup_app in Haddrs as (_ & Hdisj & _). intros Hin.
      apply (Hdisj _ Hin). simpl. apply elem_of_cons. by left. }
    set (prev := node_slot (hasher_ m) n x).
    set (new := node_slot (hasher_ m) (2 * n) x).
    assert (Hstep : ∃ t1,
      rehash_body n x m = Val tt (set_table (λ _, t1) m)
      ∧ length t1 = 2 * n
      ∧ indexed (rehash_slot (hasher_ m) n (l1 ++ [x]))
                (marks before_begin (elements_ m)) t1).
    { unfold rehash_body. steps. run (modulo_run (hasher_ m (key_of x)) n m Hn). steps.
      rewrite Hlen.
      run (modulo_run (hasher_ m (key_of x)) (2 * n) m ltac:(lia)).
      fold (slot (hasher_ m) n (key_of x)).
      fold (slot (hasher_ m) (2 * n) (key_of x)).
      fold (node_slot (hasher_ m) n x). fold (node_slot (hasher_ m) (2 * n) x).
      fold prev new.
      destruct (decide (prev ≠ new)) as [Hne|Heq%dec_stable].
      - destruct (node_marked before_begin _ _ Hx) as [p Hp].
        assert (Hgx : rehash_slot (hasher_ m) n l1 x = prev)
          by by apply rehash_slot_pending.
        destruct (lookup_lt_is_Some_2 (table_ m) prev) as [b Hb].
        { rewrite Hlen. pose proof (slot_lt (hasher_ m) n (key_of x) Hn).
          unfold prev, node_slot. lia. }
        destruct (lookup_lt_is_Some_2 (table_ m) new) as [bn Hbn].
        { rewrite Hlen. apply slot_lt. lia. }
        destruct (table_scan_present _ _ _ Haddrs Hkeys Hidx p x b Hp)
          as (i & Hscan & Hi); [by rewrite Hgx|].
        run (find_prev_in_bucket_run _ _ _ _ _ Hb Hscan).
        run (bucket_run _ _ _ Hb). rewrite Hi. unfold defined. steps.
        run (push_marker_run _ p _ _ Hbn).
        erewrite erase_marker_after_run;
          [|simpl; rewrite list_lookup_insert_ne by done; exact Hb|exact Hi].
        exists (<[prev := delete i b]> (<[new := p :: bn]> (table_ m))).
        split; [reflexivity|]. split.
        + by rewrite !length_insert.
        + simpl. rewrite <-Hgx.
          replace new with (rehash_slot (hasher_ m) n (l1 ++ [x]) x).
          2:{ apply rehash_slot_visited. unfold addrs. rewrite fmap_app.
              apply elem_of_app. right. apply elem_of_cons. by left. }
          assert (Hnew : rehash_slot (hasher_ m) n (l1 ++ [x]) x = new).
          { apply rehash_slot_visited. unfold addrs. rewrite fmap_app.
            apply elem_of_app. right. apply elem_of_cons. by left. }
          apply indexed_move; try done.
          * rewrite marks_snd. by eapply NoDup_fmap_1.
          * intros p' y Hy%marks_node Hyx. apply rehash_slot_snoc.
            intros Ha. apply Hyx. by eapply addr_inj.
          * by rewrite Hgx, Hnew.
          * by rewrite Hgx.
          * by rewrite Hnew.
      - exists (table_ m). split; [by destruct m|]. split; [done|].
        apply (indexed_ext (rehash_slot (hasher_ m) n l1)); [|done].
        intros p y Hy%marks_node.
        destruct (decide (addr y = addr x)) as [Ha|Ha].
        + assert (y = x) as -> by by eapply addr_inj.
          rewrite rehash_slot_pending by done.
          rewrite rehash_slot_visited; [done|].
          unfold addrs. rewrite fmap_app.
          apply elem_of_app. right. apply elem_of_cons. by left.
        + symmetry. by apply rehash_slot_snoc. }
    destruct Hstep as (t1 & Hrun & Hlen1 & Hidx1).
    destruct (IH (l1 ++ [x]) (set_table (λ _, t1) m)) as (t' & Hrun' & Hlen' & Hidx');
      [simpl; by rewrite <-(assoc_L (++))|done..|].
    exists t'. split; [|done].
    simpl for_each. run Hrun. by rewrite Hrun'.
Qed.

Lemma rehash_spec m :
  wf m →
  ∃ m', rehash m = Val tt m' ∧ wf m' ∧ hasher_ m' = hasher_ m
        ∧ elements_ m' = elements_ m
        ∧ length (table_ m') = 2 * length (table_ m).
Proof.
  intros Hwf. set (n := length (table_ m)).
  destruct (rehash_loop_spec n [] (elements_ m)
              (set_table (resize (2 * n) []) m)) as (t' & Hrun & Hlen & Hidx);
    try (done || apply Hwf).
  - simpl. by rewrite length_resize.
  - simpl. intros j b Hj.
    rewrite (expected_ext _ (node_slot (hasher_ m) n)).
    2:{ intros p y _. by apply rehash_slot_pending, not_elem_of_nil. }
    destruct (decide (j < n)) as [Hlt|Hge].
    + rewrite lookup_resize in Hj by (done || lia).
      by apply (wf_indexed _ Hwf).
    + assert (Hjn : j < 2 * n).
      { apply lookup_lt_Some in Hj. by rewrite length_resize in Hj. }
      rewrite lookup_resize_new in Hj by (done || fold n; lia).
      injection Hj as <-. rewrite expected_empty; [done|].
      intros p y _ Hy.
      pose proof (slot_lt (hasher_ m) n (key_of y) (wf_table _ Hwf)).
      unfold node_slot in Hy. lia.
  - exists (set_table (λ _, t') m).
    split; [unfold rehash; steps; exact Hrun|].
    split; [|simpl; by rewrite Hlen].
    constructor; simpl; rewrite ?Hlen; try (done || apply Hwf).
    unfold n. pose proof (wf_table _ Hwf). lia.
Qed.

(** ** [erase] *)

Lemma after_node_self l1 x l2 :
  NoDup (addrs (l1 ++ x :: l2)) →
  after_node (addr x) (l1 ++ x :: l2) = Some l2.
Proof.
  unfold addrs. rewrite fmap_app. intros (_ & Hdisj & _)%NoDup_app.
  rewrite after_node_app.
  - simpl. by rewrite decide_True.
  - intros Hin. apply (Hdisj _ Hin). simpl. apply elem_of_cons. by left.
Qed.

Lemma node_of_present l1 y l2 :
  NoDup (addrs (l1 ++ y :: l2)) →
  node_of (node_at (addr y)) (l1 ++ y :: l2) = Some y.
Proof.
  simpl. induction l1 as [|z l1 IH]; simpl.
  - intros _. by rewrite bool_decide_eq_true_2.
  - intros [Hz Hl]%NoDup_cons. rewrite bool_decide_eq_false_2; [by apply IH|].
    intros Ha. apply Hz. rewrite Ha. unfold addrs. rewrite fmap_app.
    apply elem_of_app. right. apply elem_of_cons. by left.
Qed.

Lemma erase_after_node_app a k l :
  a ∉ addrs k →
  erase_after_node a (k ++ l) = (k ++.) <$> erase_after_node a l.
Proof.
  induction k as [|z k IH]; simpl.
  - intros _. by destruct (erase_after_node a l).
  - intros [Hne Hin]%not_elem_of_cons. rewrite decide_False by done.
    rewrite IH by done. by destruct (erase_after_node a l).
Qed.

Lemma erase_after_last_it l1 x l2 :
  NoDup (addrs (l1 ++ x :: l2)) →
  erase_after (last_it before_begin l1) (l1 ++ x :: l2) = Some (l1 ++ l2).
Proof.
  destruct l1 as [|z l1 _] using rev_ind; [done|].
  rewrite last_it_snoc, <-!(assoc_L (++)). simpl.
  unfold addrs. rewrite fmap_app. intros (_ & Hdisj & _)%NoDup_app.
  rewrite erase_after_node_app.
  - simpl. by rewrite decide_True.
  - intros Hin. apply (Hdisj _ Hin). simpl. apply elem_of_cons. by left.
Qed.

Lemma erase_absent key m :
  wf m → key ∉ keys (elements_ m) → erase key m = Val tt m.
Proof.
  intros Hwf Hkey. destruct (wf_bucket m Hwf key) as [b Hb]. unfold erase.
  run (bucket_index_of_run key m (wf_table _ Hwf)).
  run (lookup_absent m Hwf key b Hkey Hb). run (bucket_run _ _ _ Hb).
  by rewrite lookup_ge_None_2.
Qed.

Lemma NoDup_app_cons_delete {A} (l1 : list A) x l2 :
  NoDup (l1 ++ x :: l2) → NoDup (l1 ++ l2).
Proof.
  rewrite !NoDup_app. intros (H1 & Hdisj & [_ H2]%NoDup_cons).
  split; [done|]. split; [|done].
  intros y Hy Hy2. apply (Hdisj y Hy). apply elem_of_cons. by right.
Qed.

Lemma erase_present l1 x l2 m :
  wf m → elements_ m = l1 ++ x :: l2 →
  ∃ m', erase (key_of x) m = Val tt m' ∧ wf m' ∧ hasher_ m' = hasher_ m
        ∧ elements_ m' = l1 ++ l2
        ∧ length (table_ m') = length (table_ m).
Proof.
  intros Hwf Hl.
  pose proof (wf_addrs _ Hwf) as Haddrs. pose proof (wf_keys _ Hwf) as Hkeys.
  pose proof (wf_indexed _ Hwf) as Hidx. pose proof (wf_table _ Hwf) as Htable.
  set (g := node_slot (hasher_ m) (length (table_ m))) in *.
  set (p := last_it before_begin l1).
  assert (Hp : (p, x) ∈ marks before_begin (elements_ m)).
  { apply elem_of_marks. by exists l1, l2. }
  destruct (wf_bucket m Hwf (key_of x)) as [b Hb].
  destruct (lookup_present m Hwf p x b Hp Hb) as (i & Hrun & Hi).
  assert (Hmarks : marks before_begin (elements_ m)
                   ≡ₚ (p, x) :: marks (node_at (addr x)) l2 ++ marks before_begin l1).
  { rewrite Hl, marks_app. simpl. fold p.
    rewrite (Permutation_app_comm (marks before_begin l1)). done. }
  (* the marker of the node after [x], if there is one, becomes [p] *)
  assert (Hnext : ∃ t1 b1,
    (if decide (begin_of l2 ≠ past_end) then
       nx <- defined (node_of (begin_of l2) (elements_ m));;
       tmp_bucket_index <- bucket_index_of (key_of nx);;
       kt <- find_prev_in_bucket tmp_bucket_index (key_of nx);;
       assign_marker tmp_bucket_index kt p
     else ret tt) (set_size pred m)
    = Val tt (set_table (λ _, t1) (set_size pred m))
    ∧ length t1 = length (table_ m)
    ∧ t1 !! g x = Some b1 ∧ b1 !! i = Some p
    ∧ indexed g ((p, x) :: marks p l2 ++ marks before_begin l1) t1).
  { destruct l2 as [|y r2].
    - exists (table_ m), b. change (begin_of []) with past_end.
      rewrite decide_False by (by intros ?).
      split; [by destruct m|]. split; [done|]. split; [done|]. split; [done|].
      by apply (indexed_Permutation _ _ _ _ Hmarks).
    - change (begin_of (y :: r2)) with (node_at (addr y)).
      rewrite decide_True by done.
      assert (Hnode : node_of (node_at (addr y)) (elements_ m) = Some y).
      { assert (Heq : l1 ++ x :: y :: r2 = (l1 ++ [x]) ++ y :: r2)
          by (by rewrite <-(assoc_L (++))).
        rewrite Hl, Heq. apply node_of_present. by rewrite <-Heq, <-Hl. }
      rewrite Hnode. unfold defined. steps.
      assert (Hy : (node_at (addr x), y) ∈ marks before_begin (elements_ m)).
      { apply elem_of_marks. exists (l1 ++ [x]), r2.
        by rewrite last_it_snoc, <-(assoc_L (++)). }
      destruct (wf_bucket m Hwf (key_of y)) as [bt Hbt].
      destruct (table_scan_present _ _ _ Haddrs Hkeys Hidx _ y bt Hy Hbt)
        as (kt & Hscan & Hkt).
      erewrite bind_Val by (by apply bucket_index_of_run).
      erewrite bind_Val by (by eapply find_prev_in_bucket_run).
      erewrite assign_marker_run by (simpl; eassumption).
      exists (<[g y := <[kt := p]> bt]> (table_ m)).
      assert (Hb1 : ∃ b1, <[g y := <[kt := p]> bt]> (table_ m) !! g x = Some b1
                          ∧ b1 !! i = Some p).
      { rewrite list_lookup_insert.
        destruct (decide (g y = g x ∧ g y < length (table_ m))) as [[Hg _]|_].
        - exists (<[kt := p]> bt). split; [done|].
          assert (bt = b) as -> by (unfold g, node_slot in Hg; congruence).
          rewrite list_lookup_insert. by case_decide.
        - by exists b. }
      destruct Hb1 as (b1 & Hb1 & Hi1). exists b1.
      split; [done|]. split; [by rewrite length_insert|].
      split; [done|]. split; [done|].
      simpl. apply (indexed_Permutation _
        ((p, y) :: (p, x) :: marks (node_at (addr y)) r2 ++ marks before_begin l1));
        [apply Permutation_swap|].
      apply (indexed_reassign g _ _ (node_at (addr x))); [|done..].
      apply (indexed_Permutation g (marks before_begin (elements_ m))); [|done].
      rewrite Hmarks. simpl. apply Permutation_swap. }
  destruct Hnext as (t1 & b1 & Hnext & Hlen1 & Hb1 & Hi1 & Hidx1).
  exists (set_table (λ _, <[g x := delete i b1]> t1)
            (set_elements (λ _, l1 ++ l2) (set_size pred m))).
  split; [|split; [|split; [done|split; [done|]]]].
  - unfold erase.
    run (bucket_index_of_run (key_of x) m Htable).
    run Hrun. run (bucket_run _ _ _ Hb). rewrite Hi. steps.
    change (elements_ (set_size pred m)) with (elements_ m).
    rewrite (marks_next_of _ p x Haddrs Hp). unfold defined at 1. steps.
    assert (Hnx : next_of (node_at (addr x)) (elements_ m) = Some (begin_of l2)).
    { unfold next_of. simpl. rewrite Hl, after_node_self; [done|by rewrite <-Hl]. }
    rewrite Hnx. unfold defined at 1. steps.
    run Hnext.
    assert (Hea : erase_after p (elements_ m) = Some (l1 ++ l2)).
    { rewrite Hl. apply erase_after_last_it. by rewrite <-Hl. }
    rewrite Hea. unfold defined at 1. steps.
    by erewrite erase_marker_after_run by (simpl; eassumption).
  - constructor; simpl.
    + rewrite Hl in Haddrs. unfold addrs in *. rewrite fmap_app in *.
      by eapply NoDup_app_cons_delete.
    + rewrite Hl in Hkeys. unfold keys in *. rewrite fmap_app in *.
      by eapply NoDup_app_cons_delete.
    + by rewrite length_insert, Hlen1.
    + rewrite (wf_size _ Hwf), Hl, !length_app. simpl. lia.
    + rewrite length_insert, Hlen1. fold g.
      apply (indexed_Permutation _ (marks p l2 ++ marks before_begin l1)).
      { rewrite marks_app. apply Permutation_app_comm. }
      by apply (indexed_remove g _ _ p x b1 i).
  - simpl. by rewrite length_insert.
Qed.

(** ** [clear] *)

Lemma cleared_length g l t : length (cleared g l t) = length t.
Proof.
  revert t. induction l as [|x l IH]; intros t; [done|].
  simpl. by rewrite IH, length_insert.
Qed.

Lemma cleared_lookup g l t j b :
  cleared g l t !! j = Some b →
  b = [] ∨ (t !! j = Some b ∧ ∀ n, n ∈ l → g n ≠ j).
Proof.
  revert t. induction l as [|x l IH]; intros t; simpl.
  - intros Hj. right. split; [done|]. by intros n ?%elem_of_nil.
  - intros [->|[Hj Hl]]%IH; [by left|].
    rewrite list_lookup_insert in Hj.
    destruct (decide (g x = j ∧ g x < length t)) as [_|Hne].
    + left. congruence.
    + right. split; [done|]. intros n [->|Hn]%elem_of_cons; [|by apply Hl].
      intros <-. apply Hne. split; [done|]. by eapply lookup_lt_Some.
Qed.

Lemma clear_loop_run h n l m :
  hasher_ m = h → length (table_ m) = n → 0 < n →
  for_each clear_body l m = Val tt (set_table (cleared (node_slot h n) l) m).
Proof.
  revert m. induction l as [|x l IH]; intros m Hh Hlen Hn.
  - by destruct m.
  - simpl for_each.
    destruct (lookup_lt_is_Some_2 (table_ m) (node_slot h n x)) as [b Hb].
    { rewrite Hlen. by apply slot_lt. }
    assert (Hbody : clear_body x m
                    = Val tt (set_table (λ t, <[node_slot h n x := []]> t) m)).
    { unfold clear_body.
      erewrite bind_Val by (apply bucket_index_of_run; lia).
      rewrite Hh, Hlen. fold (node_slot h n x). by run (bucket_run _ _ _ Hb). }
    run Hbody. rewrite IH; [done|done|simpl|done]. by rewrite length_insert.
Qed.

Lemma clear_spec m :
  wf m →
  ∃ m', clear m = Val tt m' ∧ wf m' ∧ hasher_ m' = hasher_ m
        ∧ elements_ m' = [] ∧ table_ m' = cleared
             (node_slot (hasher_ m) (length (table_ m))) (elements_ m) (table_ m).
Proof.
  intros Hwf.
  set (g := node_slot (hasher_ m) (length (table_ m))).
  exists (set_size (λ _, 0) (set_elements (λ _, [])
            (set_table (cleared g (elements_ m)) m))).
  split; [|split; [|done]].
  - unfold clear. steps.
    by run (clear_loop_run _ _ (elements_ m) m eq_refl eq_refl (wf_table _ Hwf)).
  - constructor; simpl; rewrite ?cleared_length; try (done || apply Hwf).
    + constructor.
    + constructor.
    + intros j b [->|[Hj Hl]]%cleared_lookup; [done|].
      rewrite (wf_indexed _ Hwf _ _ Hj). fold g.
      rewrite expected_empty; [done|].
      intros p n Hn%marks_node. by apply Hl.
Qed.

(** ** [insert], [operator[]] and ranges *)

Lemma insert_spec p m :
  wf m →
  ∃ m', insert p m = Val tt m' ∧ wf m' ∧ hasher_ m' = hasher_ m
        ∧ elements_ m' = inserted p (elements_ m)
        ∧ length (table_ m') =
          if decide ((p.1 ∉ keys (elements_ m))
                     ∧ length (table_ m) < S (size_ m))
          then 2 * length (table_ m) else length (table_ m).
Proof.
  intros Hwf. unfold inserted.
  destruct (decide (p.1 ∈ keys (elements_ m))) as [Hin|Hnotin].
  - exists m. rewrite decide_False by tauto. by rewrite insert_present.
  - destruct (insert_absent p m Hwf Hnotin) as (m1 & Hwf1 & Hh & Hl & Hlen & Hrun).
    assert (Hsize : size_ m1 = S (size_ m)).
    { rewrite (wf_size _ Hwf1), Hl, (wf_size _ Hwf). done. }
    rewrite Hrun, Hlen, Hsize.
    destruct (decide (length (table_ m) < S (size_ m))) as [Hlt|Hge].
    + rewrite decide_True by done.
      destruct (rehash_spec m1 Hwf1) as (m' & Hrun' & Hwf' & Hh' & Hl' & Hlen').
      exists m'. rewrite Hh', Hl', Hlen'. by rewrite Hlen.
    + rewrite decide_False by tauto. by exists m1.
Qed.

Lemma index_present n m :
  wf m → n ∈ elements_ m → index (key_of n) m = Val (addr n) m.
Proof.
  intros Hwf [p Hpn]%(node_marked before_begin).
  destruct (wf_bucket m Hwf (key_of n)) as [b Hb].
  destruct (lookup_present m Hwf p n b Hpn Hb) as (i & Hrun & Hi). unfold index.
  run (bucket_index_of_run (key_of n) m (wf_table _ Hwf)).
  run Hrun. run (bucket_run _ _ _ Hb). rewrite Hi. steps.
  by rewrite (marks_succ_node _ p n) by (done || apply Hwf).
Qed.

Lemma index_absent key m :
  wf m → key ∉ keys (elements_ m) →
  ∃ m', insert (key, default_value) m = Val tt m'
        ∧ index key m = Val (fresh_addr (elements_ m)) m'.
Proof.
  intros Hwf Hkey. destruct (wf_bucket m Hwf key) as [b Hb].
  destruct (insert_spec (key, default_value) m Hwf)
    as (m' & Hrun & _ & _ & Hl & _).
  exists m'. split; [done|]. unfold index.
  run (bucket_index_of_run key m (wf_table _ Hwf)).
  run (lookup_absent m Hwf key b Hkey Hb). run (bucket_run _ _ _ Hb).
  rewrite lookup_ge_None_2 by done. run Hrun. steps.
  rewrite Hl. unfold inserted. by rewrite decide_False.
Qed.

Lemma erased_absent key l : key ∉ keys l → erased key l = l.
Proof.
  induction l as [|x l IH]; [done|]. simpl.
  intros [Hne Hin]%not_elem_of_cons. unfold erased.
  rewrite filter_cons_True by done. f_equal. by apply IH.
Qed.

Lemma erased_present l1 x l2 :
  NoDup (keys (l1 ++ x :: l2)) → erased (key_of x) (l1 ++ x :: l2) = l1 ++ l2.
Proof.
  unfold keys. rewrite fmap_app. simpl.
  intros (_ & Hdisj & [Hx _]%NoDup_cons)%NoDup_app.
  unfold erased. rewrite filter_app, filter_cons_False by (by intros ?).
  f_equal; apply erased_absent.
  - intros Hin. apply (Hdisj _ Hin). apply elem_of_cons. by left.
  - done.
Qed.

Lemma erase_spec key m :
  wf m →
  ∃ m', erase key m = Val tt m' ∧ wf m' ∧ hasher_ m' = hasher_ m
        ∧ elements_ m' = erased key (elements_ m)
        ∧ length (table_ m') = length (table_ m).
Proof.
  intros Hwf. destruct (decide (key ∈ keys (elements_ m))) as [Hin|Hnotin].
  - apply list_elem_of_fmap in Hin as (x & -> & Hx).
    apply list_elem_of_split in Hx as (l1 & l2 & Hl).
    destruct (erase_present l1 x l2 m Hwf Hl) as (m' & ? & ? & ? & Hl' & ?).
    exists m'. rewrite Hl', Hl, erased_present; [done|].
    rewrite <-Hl. apply Hwf.
  - exists m. by rewrite erase_absent, erased_absent.
Qed.

(** ** The load factor *)

Lemma grows_refl m : grows m m.
Proof. by split. Qed.

Lemma grows_trans m1 m2 m3 : grows m1 m2 → grows m2 m3 → grows m1 m3.
Proof. intros [? ?] [? ?]. split; [congruence|lia]. Qed.

Lemma new_good h : good (HashMap_new h).
Proof.
  split.
  - constructor; simpl; try (done || constructor || lia).
    intros [|[|j]] b; simpl; [|done..]. by intros [= <-].
  - unfold load_ok. simpl. lia.
  - by exists 0.
Qed.

Lemma insert_good p m :
  good m →
  ∃ m', insert p m = Val tt m' ∧ good m' ∧ grows m m'
        ∧ elements_ m' = inserted p (elements_ m).
Proof.
  intros [Hwf Hload [k Hk]].
  destruct (insert_spec p m Hwf) as (m' & Hrun & Hwf' & Hh & Hl & Hlen).
  exists m'.
  assert (Hsz : size_ m' = length (inserted p (elements_ m)))
    by by rewrite (wf_size _ Hwf'), Hl.
  unfold inserted in *. unfold load_ok in Hload.
  rewrite (wf_size _ Hwf) in Hload, Hlen.
  pose proof (wf_table _ Hwf) as Htable.
  destruct (decide (p.1 ∈ keys (elements_ m))) as [Hin|Hnotin].
  - rewrite decide_False in Hlen by tauto.
    split; [done|]. split; [|split; [split; [done|lia]|done]].
    split; [done|unfold load_ok; lia|exists k; congruence].
  - simpl in Hsz. split; [done|]. case_decide as Hc.
    + split; [|split; [split; [done|lia]|done]].
      split; [done|unfold load_ok; lia|].
      exists (S k). rewrite Hlen, Hk. by rewrite Nat.pow_succ_r'.
    + split; [|split; [split; [done|lia]|done]].
      split; [done| |exists k; congruence].
      unfold load_ok. rewrite Hsz, Hlen.
      destruct (decide (length (table_ m) < S (length (elements_ m))));
        [destruct Hc; by split|lia].
Qed.

Lemma erase_good key m :
  good m →
  ∃ m', erase key m = Val tt m' ∧ good m' ∧ grows m m'
        ∧ elements_ m' = erased key (elements_ m).
Proof.
  intros [Hwf Hload [k Hk]].
  destruct (erase_spec key m Hwf) as (m' & Hrun & Hwf' & Hh & Hl & Hlen).
  exists m'. split; [done|]. split; [|split; [split; [done|lia]|done]].
  split; [done| |exists k; congruence].
  unfold load_ok in *. rewrite (wf_size _ Hwf'), Hl, Hlen.
  rewrite (wf_size _ Hwf) in Hload.
  pose proof (length_filter (λ n, key_of n ≠ key) (elements_ m)).
  unfold erased. lia.
Qed.

Lemma clear_good m :
  good m →
  ∃ m', clear m = Val tt m' ∧ good m' ∧ grows m m' ∧ elements_ m' = [].
Proof.
  intros [Hwf Hload [k Hk]].
  destruct (clear_spec m Hwf) as (m' & Hrun & Hwf' & Hh & Hl & Ht).
  assert (Hlen : length (table_ m') = length (table_ m))
    by by rewrite Ht, cleared_length.
  exists m'. split; [done|]. split; [|split; [split; [done|lia]|done]].
  split; [done| |exists k; congruence].
  unfold load_ok. rewrite (wf_size _ Hwf'), Hl. simpl. lia.
Qed.

Lemma rehash_good m :
  good m →
  ∃ m', rehash m = Val tt m' ∧ good m' ∧ grows m m'
        ∧ elements_ m' = elements_ m
        ∧ length (table_ m') = 2 * length (table_ m).
Proof.
  intros [Hwf Hload [k Hk]].
  destruct (rehash_spec m Hwf) as (m' & Hrun & Hwf' & Hh & Hl & Hlen).
  exists m'. split; [done|]. split; [|split; [split; [done|lia]|done]].
  split; [done| |].
  - unfold load_ok in *. rewrite (wf_size _ Hwf'), Hl, Hlen.
    rewrite (wf_size _ Hwf) in Hload. lia.
  - exists (S k). rewrite Hlen, Hk. by rewrite Nat.pow_succ_r'.
Qed.

Lemma insert_range_good ps m :
  good m →
  ∃ m', insert_range ps m = Val tt m' ∧ good m' ∧ grows m m'
        ∧ elements_ m' = inserted_range ps (elements_ m).
Proof.
  revert m. induction ps as [|p ps IH]; intros m Hgood.
  - exists m. split; [done|]. split; [done|]. split; [apply grows_refl|done].
  - destruct (insert_good p m Hgood) as (m1 & Hrun1 & Hgood1 & Hgrows1 & Hl1).
    destruct (IH m1 Hgood1) as (m' & Hrun' & Hgood' & Hgrows' & Hl').
    exists m'. split; [|split; [done|split; [by eapply grows_trans|]]].
    + unfold insert_range in *. simpl for_each. by run Hrun1.
    + rewrite Hl', Hl1. done.
Qed.

Lemma assign_from_good src m :
  good m →
  ∃ m', assign_from src m = Val tt m' ∧ good m' ∧ grows m m'
        ∧ elements_ m' = inserted_range (elem <$> src) [].
Proof.
  intros Hgood.
  destruct (clear_good m Hgood) as (m1 & Hrun1 & Hgood1 & Hgrows1 & Hl1).
  destruct (insert_range_good (elem <$> src) m1 Hgood1)
    as (m' & Hrun' & Hgood' & Hgrows' & Hl').
  exists m'. split; [|split; [done|split; [by eapply grows_trans|]]].
  - unfold assign_from. by run Hrun1.
  - by rewrite Hl', Hl1.
Qed.

Lemma index_good key m :
  good m →
  ∃ a m', index key m = Val a m' ∧ good m' ∧ grows m m'
          ∧ elements_ m' = inserted (key, default_value) (elements_ m)
          ∧ ∃ n, n ∈ elements_ m' ∧ addr n = a ∧ key_of n = key.
Proof.
  intros Hgood. pose proof (good_wf _ Hgood) as Hwf.
  destruct (decide (key ∈ keys (elements_ m))) as [Hin|Hnotin].
  - pose proof Hin as (n & -> & Hn)%list_elem_of_fmap.
    exists (addr n), m. rewrite index_present by done.
    unfold inserted. rewrite decide_True by done.
    split; [done|]. split; [done|]. split; [apply grows_refl|].
    split; [done|]. by exists n.
  - destruct (index_absent key m Hwf Hnotin) as (m' & Hins & Hrun).
    destruct (insert_good (key, default_value) m Hgood)
      as (m'' & Hins' & Hgood' & Hgrows' & Hl').
    assert (m'' = m') as -> by congruence.
    exists (fresh_addr (elements_ m)), m'.
    split; [done|]. split; [done|]. split; [done|]. split; [done|].
    rewrite Hl'. unfold inserted. rewrite decide_False by done.
    eexists. split; [apply elem_of_cons; by left|done].
Qed.

Lemma reachable_step m m' : reachable m → step m m' → reachable m'.
Proof.
  intros Hm Hstep.
  destruct Hstep as [m p m' Hrun|m k m' Hrun|m k a m' Hrun|m m' Hrun
                    |m m' Hrun|m other m' Hother Hrun].
  - by apply (reachable_insert m p).
  - by apply (reachable_erase m k).
  - by apply (reachable_index m k a).
  - by apply (reachable_clear m).
  - by apply (reachable_rehash m).
  - by apply (reachable_assign m other).
Qed.

Lemma step_good m m' : good m → step m m' → good m' ∧ grows m m'.
Proof.
  intros Hgood Hstep.
  destruct Hstep as [m0 p m1 Hrun|m0 k m1 Hrun|m0 k a m1 Hrun|m0 m1 Hrun
                    |m0 m1 Hrun|m0 other m1 _ Hrun].
  - destruct (insert_good p m0 Hgood) as (m2 & Hrun2 & ? & ? & _).
    by assert (m2 = m1) as -> by congruence.
  - destruct (erase_good k m0 Hgood) as (m2 & Hrun2 & ? & ? & _).
    by assert (m2 = m1) as -> by congruence.
  - destruct (index_good k m0 Hgood) as (a2 & m2 & Hrun2 & ? & ? & _).
    by assert (m2 = m1) as -> by congruence.
  - destruct (clear_good m0 Hgood) as (m2 & Hrun2 & ? & ? & _).
    by assert (m2 = m1) as -> by congruence.
  - destruct (rehash_good m0 Hgood) as (m2 & Hrun2 & ? & ? & _).
    by assert (m2 = m1) as -> by congruence.
  - destruct (assign_from_good (elements_ other) m0 Hgood)
      as (m2 & Hrun2 & ? & ? & _).
    by assert (m2 = m1) as -> by congruence.
Qed.

Lemma reachable_good m : reachable m → good m.
Proof.
  induction 1 as [h|m p m' _ IH Hrun|m k m' _ IH Hrun|m k a m' _ IH Hrun
                 |m m' _ IH Hrun|m m' _ IH Hrun|m other m' _ IH Hother _ Hrun].
  - apply new_good.
  - by apply (step_good m m' IH), step_insert with p.
  - by apply (step_good m m' IH), step_erase with k.
  - by apply (step_good m m' IH), step_index with k a.
  - by apply (step_good m m' IH), step_clear.
  - by apply (step_good m m' IH), step_rehash.
  - by apply (step_good m m' IH), step_assign with other.
Qed.

(** No public member function runs into undefined behaviour. *)
Lemma step_total m :
  reachable m →
  (∀ p, ∃ m', insert p m = Val tt m') ∧ (∀ k, ∃ m', erase k m = Val tt m')
  ∧ (∀ k, ∃ a m', index k m = Val a m') ∧ (∃ m', clear m = Val tt m')
  ∧ (∃ m', rehash m = Val tt m')
  ∧ (∀ src, ∃ m', assign_from src m = Val tt m').
Proof.
  intros Hgood%reachable_good. repeat split.
  - intros p. destruct (insert_good p m Hgood) as (m' & ? & _). by exists m'.
  - intros k. destruct (erase_good k m Hgood) as (m' & ? & _). by exists m'.
  - intros k. destruct (index_good k m Hgood) as (a & m' & ? & _). by exists a, m'.
  - destruct (clear_good m Hgood) as (m' & ? & _). by exists m'.
  - destruct (rehash_good m Hgood) as (m' & ? & _). by exists m'.
  - intros src. destruct (assign_from_good src m Hgood) as (m' & ? & _).
    by exists m'.
Qed.

(** ** All markers of the table *)

Lemma expected_from g ms c :
  expected g ms c ++ (filter (λ pn : iterator * Node, S c ≤ g pn.2) ms).*1
  ≡ₚ (filter (λ pn : iterator * Node, c ≤ g pn.2) ms).*1.
Proof.
  induction ms as [|[p n] ms IH]; [done|].
  rewrite expected_cons, !filter_cons. simpl.
  destruct (decide (g n = c)) as [->|Hne].
  - rewrite decide_False, decide_True by lia. simpl. by f_equiv.
  - destruct (decide (S c ≤ g n)).
    + rewrite decide_True by lia. simpl. rewrite <-Permutation_middle. by f_equiv.
    + by rewrite decide_False by lia.
Qed.

Lemma indexed_concat g ms t :
  (∀ p n, (p, n) ∈ ms → g n < length t) → indexed g ms t →
  concat t ≡ₚ ms.*1.
Proof.
  intros Hlt Hidx.
  assert (Hgen : ∀ t' k, t = k ++ t' →
    concat t' ≡ₚ (filter (λ pn : iterator * Node, length k ≤ g pn.2) ms).*1).
  { induction t' as [|b t' IH]; intros k Ht.
    - simpl. destruct (filter _ ms) as [|[p n] E] eqn:HE; [done|].
      assert (Hin : (p, n) ∈ filter (λ pn : iterator * Node, length k ≤ g pn.2) ms)
        by (rewrite HE; apply elem_of_cons; by left).
      apply list_elem_of_filter in Hin as [Hle Hin]. simpl in Hle.
      specialize (Hlt _ _ Hin). rewrite Ht, length_app in Hlt. simpl in Hlt. lia.
    - simpl. rewrite (IH (k ++ [b])) by by rewrite <-(assoc_L (++)).
      assert (Hb : b ≡ₚ expected g ms (length k)).
      { apply Hidx. rewrite Ht. by rewrite list_lookup_middle. }
      rewrite Hb, length_app. simpl length.
      replace (length k + 1) with (S (length k)) by lia. apply expected_from. }
  rewrite (Hgen t [] eq_refl). simpl. f_equiv.
  clear. induction ms as [|pn ms IH]; [done|].
  rewrite filter_cons_True by (simpl; lia). by rewrite IH.
Qed.

Lemma wf_concat m :
  wf m → concat (table_ m) ≡ₚ (marks before_begin (elements_ m)).*1.
Proof.
  intros Hwf. eapply indexed_concat; [|apply Hwf].
  intros p n _. apply slot_lt, Hwf.
Qed.

Lemma length_filter_unique {A} (P : A → Prop) `{∀ x, Decision (P x)}
    (l : list A) x :
  NoDup l → x ∈ l → P x → (∀ y, y ∈ l → P y → y = x) →
  length (filter P l) = 1.
Proof.
  induction l as [|y l IH]; [by intros _ ?%elem_of_nil|].
  intros [Hy Hl]%NoDup_cons Hx HP Huniq.
  destruct (decide (P y)) as [HPy|HPy].
  - assert (y = x) as -> by (apply Huniq; [apply elem_of_cons; by left|done]).
    rewrite filter_cons_True by done. simpl. f_equal.
    apply length_zero_iff_nil.
    destruct (filter P l) as [|z E] eqn:HE; [done|].
    assert (Hz : z ∈ filter P l) by (rewrite HE; apply elem_of_cons; by left).
    apply list_elem_of_filter in Hz as [HPz Hz].
    destruct Hy. rewrite <-(Huniq z); [done| |done].
    apply elem_of_cons. by right.
  - apply elem_of_cons in Hx as [->|Hx]; [done|].
    rewrite filter_cons_False by done.
    apply IH; try done. intros z Hz. apply Huniq, elem_of_cons. by right.
Qed.

Lemma wf_markers_of m n :
  wf m → n ∈ elements_ m → markers_of (addr n) m = 1.
Proof.
  intros Hwf Hn. unfold markers_of. rewrite (wf_concat m Hwf).
  pose proof (wf_addrs _ Hwf) as Haddrs.
  destruct (node_marked before_begin _ _ Hn) as [p Hp].
  apply length_filter_unique with p.
  - by apply marks_NoDup.
  - by apply (list_elem_of_fmap_2 fst _ (p, n)).
  - by apply marks_next_of.
  - intros mk ([mk' n'] & -> & Hin)%list_elem_of_fmap Hnext. simpl in *.
    rewrite (marks_next_of _ mk' n') in Hnext by done.
    injection Hnext as Ha.
    assert (n' = n) as -> by (eapply addr_inj; eauto using marks_node).
    by eapply marks_inj.
Qed.

Lemma wf_home m n :
  wf m → n ∈ elements_ m →
  ∃ b mk, table_ m !! (hasher_ m (key_of n) `mod` bucket_count m) = Some b
          ∧ mk ∈ b ∧ next_of mk (elements_ m) = Some (node_at (addr n)).
Proof.
  intros Hwf Hn. destruct (node_marked before_begin _ _ Hn) as [p Hp].
  destruct (wf_bucket m Hwf (key_of n)) as [b Hb].
  exists b, p. split; [done|]. split.
  - rewrite (wf_indexed _ Hwf _ _ Hb). apply elem_of_expected. by exists n.
  - apply marks_next_of; [apply Hwf|done].
Qed.

Lemma marks_length p0 l : length (marks p0 l) = length l.
Proof.
  revert p0. induction l as [|x l IH]; intros p0; [done|].
  simpl. by rewrite IH.
Qed.

Lemma wf_markers_length m : wf m → length (concat (table_ m)) = size_ m.
Proof.
  intros Hwf.
  by rewrite (wf_concat m Hwf), (wf_size _ Hwf), length_fmap, marks_length.
Qed.

(** ** Observable results *)

Lemma lookup_same m m' key :
  wf m → wf m' → elements_ m' = elements_ m →
  outcome (find key m') = outcome (find key m)
  ∧ outcome (at_ key m') = outcome (at_ key m).
Proof.
  intros Hwf Hwf' Hl.
  destruct (decide (key ∈ keys (elements_ m))) as [Hin|Hnotin].
  - apply list_elem_of_fmap in Hin as (n & -> & Hn).
    rewrite (find_present m Hwf n Hn), (at_present m Hwf n Hn).
    rewrite <-Hl in Hn.
    by rewrite (find_present m' Hwf' n Hn), (at_present m' Hwf' n Hn).
  - rewrite (find_absent m Hwf key Hnotin), (at_absent m Hwf key Hnotin).
    rewrite <-Hl in Hnotin.
    by rewrite (find_absent m' Hwf' key Hnotin), (at_absent m' Hwf' key Hnotin).
Qed.

Lemma entry_node (l : list Node) k v :
  (k, v) ∈ elem <$> l → ∃ n, n ∈ l ∧ key_of n = k ∧ value_of n = v.
Proof.
  intros (n & Hn & Hin)%list_elem_of_fmap. exists n.
  unfold key_of, value_of. by rewrite <-Hn.
Qed.

Lemma keys_entries (l : list Node) : keys l = (elem <$> l).*1.
Proof. unfold keys. by rewrite <-list_fmap_compose. Qed.

Lemma key_count l n :
  NoDup (keys l) → n ∈ l →
  length (filter (λ p : Element, p.1 = key_of n) (elem <$> l)) = 1.
Proof.
  induction l as [|x l IH]; [by intros _ ?%elem_of_nil|].
  simpl. intros [Hx Hl]%NoDup_cons Hn.
  destruct (decide (key_of x = key_of n)) as [Heq|Hne].
  - rewrite filter_cons_True by done. simpl. f_equal.
    apply length_zero_iff_nil.
    destruct (filter _ (elem <$> l)) as [|p E] eqn:HE; [done|].
    assert (Hp : p ∈ filter (λ p : Element, p.1 = key_of n) (elem <$> l))
      by (rewrite HE; apply elem_of_cons; by left).
    apply list_elem_of_filter in Hp as [Hk (y & -> & Hy)%list_elem_of_fmap].
    destruct Hx. rewrite Heq. fold (key_of y) in Hk. rewrite <-Hk.
    by apply list_elem_of_fmap_2.
  - rewrite filter_cons_False by done.
    apply elem_of_cons in Hn as [->|Hn]; [done|]. by apply IH.
Qed.

Lemma inserted_range_fresh ps l :
  NoDup ps.*1 → (∀ p, p ∈ ps → p.1 ∉ keys l) →
  elem <$> inserted_range ps l = reverse ps ++ (elem <$> l).
Proof.
  revert l. induction ps as [|p ps IH]; intros l; [done|].
  simpl. intros [Hp Hps]%NoDup_cons Hfresh.
  unfold inserted_range. simpl. fold (inserted_range ps (inserted p l)).
  unfold inserted at 1.
  rewrite decide_False by (apply Hfresh, elem_of_cons; by left).
  rewrite IH; [|done|].
  - rewrite reverse_cons, <-(assoc_L (++)). done.
  - intros q Hq. simpl. apply not_elem_of_cons. split.
    + intros Heq. change (q.1 = p.1) in Heq. apply Hp. rewrite <-Heq.
      by apply list_elem_of_fmap_2.
    + apply Hfresh, elem_of_cons. by right.
Qed.

Lemma erased_entries k (l : list Node) : elem <$> erased k l = others k (elem <$> l).
Proof.
  unfold erased, others, key_of. induction l as [|x l IH]; [done|].
  rewrite fmap_cons, !filter_cons. simpl.
  destruct (decide ((elem x).1 ≠ k)); [rewrite fmap_cons|]; by rewrite IH.
Qed.

Lemma node_of_elem l n :
  NoDup (addrs l) → n ∈ l → node_of (node_at (addr n)) l = Some n.
Proof.
  intros Hnd (l1 & l2 & ->)%list_elem_of_split. by apply node_of_present.
Qed.

Lemma rehash_preserved m :
  wf m →
  ∃ m', rehash m = Val tt m' ∧ preserved m m'
        ∧ bucket_count m' = 2 * bucket_count m.
Proof.
  intros Hwf.
  destruct (rehash_spec m Hwf) as (m' & Hrun & Hwf' & Hh & Hl & Hlen).
  exists m'. split; [done|]. split; [|done]. split; [done|]. split.
  - by rewrite (wf_size _ Hwf'), (wf_size _ Hwf), Hl.
  - intros k. by apply lookup_same.
Qed.

(** ** The claims of the specification *)

(** C1. Marker and size invariant.  In every state reachable from an
    empty map by [insert], [erase], [operator[]], [clear], [rehash] and
    copy-assignment, every entry has exactly one marker over all buckets
    whose successor position is the entry's position, such a marker is
    stored in bucket [hash(K) mod bucket_count], and [size_] is both the
    number of entries and the total number of markers. *)
Theorem marker_size_invariant m :
  reachable m →
  (∀ i n, elements_ m !! i = Some n →
     markers_of (addr n) m = 1
     ∧ ∃ b mk,
         table_ m !! (hasher_ m (key_of n) `mod` bucket_count m) = Some b
         ∧ mk ∈ b ∧ next_of mk (elements_ m) = Some (node_at (addr n)))
  ∧ size_ m = length (elements_ m)
  ∧ size_ m = length (concat (table_ m)).
Proof.
  intros [Hwf _ _]%reachable_good. split; [|split].
  - intros i n Hn%list_elem_of_lookup_2. split.
    + by apply wf_markers_of.
    + by apply wf_home.
  - apply Hwf.
  - by rewrite wf_markers_length.
Qed.

(** C2. Round trip: after [insert(k, v)] of a key that was absent,
    [at(k)] returns [v]. *)
Theorem insert_then_at m k v :
  reachable m → ¬ contains m k →
  ∃ m', insert (k, v) m = Val tt m' ∧ at_ k m' = Val v m'.
Proof.
  intros Hgood%reachable_good Habsent.
  destruct (insert_good (k, v) m Hgood) as (m' & Hrun & [Hwf' _ _] & _ & Hl).
  exists m'. split; [done|].
  unfold inserted in Hl. rewrite decide_False in Hl by done.
  apply (at_present m' Hwf' {| addr := fresh_addr (elements_ m); elem := (k, v) |}).
  rewrite Hl. apply elem_of_cons. by left.
Qed.

(** C3. First writer wins: when [k] is present with value [v],
    [insert(k, v2)] changes nothing, however often it is repeated;
    [find(k)] and [at(k)] yield the entry with [v], and exactly one
    entry has the key [k]. *)
Theorem insert_existing_is_noop m k v v2 :
  reachable m → (k, v) ∈ entries m →
  insert (k, v2) m = Val tt m
  ∧ (∀ vs, insert_range ((λ v', (k, v')) <$> vs) m = Val tt m)
  ∧ at_ k m = Val v m
  ∧ (∃ n, find k m = Val (node_at (addr n)) m
          ∧ node_of (node_at (addr n)) (elements_ m) = Some n
          ∧ elem n = (k, v))
  ∧ length (filter (λ p, p.1 = k) (entries m)) = 1.
Proof.
  intros [Hwf _ _]%reachable_good Hin.
  destruct (entry_node _ _ _ Hin) as (n & Hn & <- & <-).
  assert (Hk : key_of n ∈ keys (elements_ m))
    by by apply (list_elem_of_fmap_2 key_of).
  split; [by apply insert_present|]. split; [|split; [|split]].
  - intros vs. induction vs as [|v' vs IH]; [done|].
    unfold insert_range in *. simpl.
    by rewrite (bind_Val _ _ _ _ _ (insert_present (_, v') m Hwf Hk)).
  - apply (at_present m Hwf n Hn).
  - exists n. split; [apply (find_present m Hwf n Hn)|]. split.
    + apply node_of_elem; [apply Hwf|done].
    + unfold key_of, value_of. by destruct (elem n).
  - apply (key_count _ n); [apply Hwf|done].
Qed.

(** C4. Rehash preserves contents.  A direct call of [rehash], and the
    call [insert] makes when the load factor is exceeded, leave the
    element list as it is, node for node, and with it [size_] and the
    result of every lookup; only the table changes, to twice as many
    buckets. *)
Theorem rehash_preserves_contents m :
  reachable m →
  (∃ m', rehash m = Val tt m' ∧ preserved m m'
         ∧ bucket_count m' = 2 * bucket_count m)
  ∧ (∀ p, ¬ contains m p.1 → bucket_count m < S (size_ m) →
       ∃ m1 m', insert p m = rehash m1 ∧ rehash m1 = Val tt m'
                ∧ elements_ m1 = push_front p (elements_ m)
                ∧ preserved m1 m'
                ∧ bucket_count m' = 2 * bucket_count m).
Proof.
  intros [Hwf _ _]%reachable_good. split; [by apply rehash_preserved|].
  intros p Habsent Hload.
  destruct (insert_absent p m Hwf Habsent) as (m1 & Hwf1 & Hh & Hl & Hlen & Hrun).
  destruct (rehash_preserved m1 Hwf1) as (m' & Hrun' & Hpres & Hcount).
  exists m1, m'. rewrite Hrun.
  assert (Hsize : size_ m1 = S (size_ m)).
  { by rewrite (wf_size _ Hwf1), Hl, (wf_size _ Hwf). }
  rewrite decide_True by (rewrite Hlen, Hsize; done).
  split; [done|]. split; [done|]. split; [done|]. split; [done|].
  unfold bucket_count in *. by rewrite Hcount, Hlen.
Qed.

(** C5. Erase.  [erase(k)] of a present key leaves [find(k)] at [end()],
    takes one off [size_] and keeps every other entry, in order and with
    its value; [erase(k)] of an absent key changes nothing. *)
Theorem erase_correct m k :
  reachable m →
  ∃ m', erase k m = Val tt m'
        ∧ (contains m k →
             find k m' = Val past_end m'
             ∧ S (size_ m') = size_ m
             ∧ entries m' = others k (entries m)
             ∧ ∀ k', k' ≠ k →
                 outcome (find k' m') = outcome (find k' m)
                 ∧ outcome (at_ k' m') = outcome (at_ k' m))
        ∧ (¬ contains m k → m' = m).
Proof.
  intros [Hwf _ _]%reachable_good.
  destruct (erase_spec k m Hwf) as (m' & Hrun & Hwf' & Hh & Hl & Hlen).
  exists m'. split; [done|]. split.
  - intros Hin. split; [|split; [|split]].
    + apply (find_absent m' Hwf'). rewrite Hl.
      intros (n & -> & [Hne _]%list_elem_of_filter)%list_elem_of_fmap. done.
    + apply list_elem_of_fmap in Hin as (x & -> & Hx).
      apply list_elem_of_split in Hx as (l1 & l2 & Hx).
      rewrite (wf_size _ Hwf'), (wf_size _ Hwf), Hl, Hx.
      rewrite erased_present by (rewrite <-Hx; apply Hwf).
      rewrite !length_app. simpl. lia.
    + unfold entries. by rewrite Hl, erased_entries.
    + intros k' Hne.
      destruct (decide (k' ∈ keys (elements_ m))) as [Hin'|Hnotin'].
      * apply list_elem_of_fmap in Hin' as (n & -> & Hn).
        assert (Hn' : n ∈ elements_ m').
        { rewrite Hl. by apply list_elem_of_filter. }
        rewrite (find_present m Hwf n Hn), (at_present m Hwf n Hn).
        by rewrite (find_present m' Hwf' n Hn'), (at_present m' Hwf' n Hn').
      * assert (Hnotin : k' ∉ keys (elements_ m')).
        { rewrite Hl. intros (n & -> & [_ Hn]%list_elem_of_filter)%list_elem_of_fmap.
          apply Hnotin'. by apply list_elem_of_fmap_2. }
        rewrite (find_absent m Hwf k' Hnotin'), (at_absent m Hwf k' Hnotin').
        by rewrite (find_absent m' Hwf' k' Hnotin), (at_absent m' Hwf' k' Hnotin).
  - intros Habsent. rewrite erase_absent in Hrun by done. congruence.
Qed.

(** C6. Load factor and growth.  A new map has one bucket; in every
    reachable state [size_] is at most the bucket count, which is a
    power of two; and a public mutating call, [erase] and [clear]
    included, multiplies the bucket count by a power of two, so it never
    goes down. *)
Theorem load_factor_bound m :
  reachable m →
  (∀ h, bucket_count (HashMap_new h) = 1)
  ∧ size_ m ≤ bucket_count m
  ∧ (∃ k, bucket_count m = 2 ^ k)
  ∧ (∀ m', step m m' →
       size_ m' ≤ bucket_count m'
       ∧ bucket_count m ≤ bucket_count m'
       ∧ ∃ j, bucket_count m' = 2 ^ j * bucket_count m).
Proof.
  intros Hgood%reachable_good. split; [done|].
  pose proof Hgood as [_ Hload [k Hk]].
  split; [done|]. split; [by exists k|].
  intros m' Hstep.
  destruct (step_good m m' Hgood Hstep) as [[_ Hload' [k' Hk']] [_ Hle]].
  split; [done|]. split; [done|]. unfold bucket_count.
  rewrite Hk, Hk' in *. exists (k' - k).
  apply Nat.pow_le_mono_r_iff in Hle; [|lia].
  rewrite <-Nat.pow_add_r. f_equal. lia.
Qed.

(** C7. [at] throws exactly for an absent key.  [at(k)] throws
    [std::out_of_range] if and only if no entry has the key [k], returns
    the value of the entry otherwise, and leaves the map as it was in
    both cases. *)
Theorem at_throws_iff_absent m k :
  reachable m →
  (at_ k m = Throw out_of_range m ↔ ¬ contains m k)
  ∧ (∀ v, (k, v) ∈ entries m → at_ k m = Val v m)
  ∧ (at_ k m = Throw out_of_range m ∨ ∃ v, at_ k m = Val v m).
Proof.
  intros [Hwf _ _]%reachable_good.
  assert (Hpresent : ∀ v, (k, v) ∈ entries m → at_ k m = Val v m).
  { intros v Hin. destruct (entry_node _ _ _ Hin) as (n & Hn & <- & <-).
    by apply at_present. }
  split; [|split; [done|]].
  - split; [|by apply at_absent].
    intros Hthrow (n & -> & Hn)%list_elem_of_fmap.
    by rewrite (at_present m Hwf n Hn) in Hthrow.
  - destruct (decide (k ∈ keys (elements_ m))) as [Hin|Hnotin].
    + right. apply list_elem_of_fmap in Hin as (n & -> & Hn).
      exists (value_of n). by apply at_present.
    + left. by apply at_absent.
Qed.

(** C8. [operator[]].  For a present key the call returns a reference
    into the entry that is there and changes nothing; for an absent key
    it is [insert] of the key with a default-constructed value, rehash
    included, the reference is to the value of the new entry, and
    [size_] has gone up by one. *)
Theorem index_access m k :
  reachable m →
  (∀ n, n ∈ elements_ m → key_of n = k →
     index k m = Val (addr n) m
     ∧ node_of (node_at (addr n)) (elements_ m) = Some n)
  ∧ (¬ contains m k →
       ∃ a m', index k m = Val a m'
               ∧ insert (k, default_value) m = Val tt m'
               ∧ node_of (node_at a) (elements_ m')
                 = Some {| addr := a; elem := (k, default_value) |}
               ∧ size_ m' = S (size_ m)).
Proof.
  intros Hgood%reachable_good. pose proof (good_wf _ Hgood) as Hwf. split.
  - intros n Hn <-. split; [by apply index_present|].
    apply node_of_elem; [apply Hwf|done].
  - intros Habsent.
    destruct (index_absent k m Hwf Habsent) as (m' & Hins & Hrun).
    destruct (insert_good (k, default_value) m Hgood)
      as (m'' & Hins' & [Hwf' _ _] & _ & Hl).
    assert (m'' = m') as -> by congruence.
    unfold inserted in Hl. rewrite decide_False in Hl by done.
    exists (fresh_addr (elements_ m)), m'.
    split; [done|]. split; [done|]. split.
    + rewrite Hl. simpl. by rewrite bool_decide_eq_true_2.
    + by rewrite (wf_size _ Hwf'), Hl, (wf_size _ Hwf).
Qed.

(** ** Copy assignment between two objects *)

Lemma call_run {A} (this : nat) (f : Method A) (σ : Store) m a m' :
  σ !! this = Some m → f m = Val a m' →
  call this f σ = Val a (<[this := m']> σ).
Proof. intros Hm Hf. unfold call. by rewrite Hm, Hf. Qed.

Lemma call_other {A} (this other : nat) (f : Method A) (σ σ' : Store) x :
  this ≠ other → call this f σ = Val x σ' → σ' !! other = σ !! other.
Proof.
  intros Hne. unfold call. destruct (σ !! this) as [m|]; [|done].
  destruct (f m); [|done..]. intros [= _ <-]. by rewrite lookup_insert_ne.
Qed.

Lemma operator_assign_self this (σ : Store) :
  operator_assign this this σ = Val tt σ.
Proof. unfold operator_assign. by rewrite decide_True. Qed.

Lemma operator_assign_run this other (σ : Store) mt mo mt' :
  this ≠ other → σ !! this = Some mt → σ !! other = Some mo →
  assign_from (elements_ mo) mt = Val tt mt' →
  operator_assign this other σ = Val tt (<[this := mt']> σ).
Proof.
  intros Hne Ht Ho Hassign. unfold operator_assign.
  rewrite decide_False by done.
  unfold assign_from, bind in Hassign.
  destruct (clear mt) as [[] m1| |] eqn:Hclear; [|done..].
  run (call_run this clear σ mt tt m1 Ht Hclear).
  erewrite bind_Val; [|apply (call_run other (gets elements_) _ mo); [|done]].
  2:{ by rewrite lookup_insert_ne. }
  rewrite (insert_id (<[this := m1]> σ) other mo)
    by by rewrite lookup_insert_ne.
  erewrite call_run; [|apply lookup_insert_eq|exact Hassign].
  by rewrite insert_insert_eq.
Qed.

Lemma at_of_entries m m' k :
  wf m → wf m' → entries m' ≡ₚ entries m →
  outcome (at_ k m') = outcome (at_ k m).
Proof.
  intros Hwf Hwf' Hperm.
  destruct (decide (k ∈ keys (elements_ m))) as [Hin|Hnotin].
  - apply list_elem_of_fmap in Hin as (n & -> & Hn).
    assert (Hin' : (key_of n, value_of n) ∈ entries m').
    { rewrite Hperm. unfold key_of, value_of.
      replace ((elem n).1, (elem n).2) with (elem n) by by destruct (elem n).
      by apply list_elem_of_fmap_2. }
    destruct (entry_node _ _ _ Hin') as (n' & Hn' & Hk & Hv).
    rewrite (at_present m Hwf n Hn), <-Hk, <-Hv.
    by rewrite (at_present m' Hwf' n' Hn').
  - assert (Hnotin' : k ∉ keys (elements_ m')).
    { rewrite keys_entries. fold (entries m'). rewrite Hperm.
      unfold entries. by rewrite <-keys_entries. }
    by rewrite (at_absent m Hwf k Hnotin), (at_absent m' Hwf' k Hnotin').
Qed.

(** C9. Copy assignment.  [a = a] changes nothing.  For two objects,
    [b = a] gives [b] the entries of [a], in reverse iteration order and
    so the same set of pairs, with the same [size_] and the same result
    of every [at]; it does not touch [a]; and afterwards [insert] and
    [erase] on either object leave the other as it is. *)
Theorem copy_assignment_independent (σ : Store) a b ma mb :
  σ !! a = Some ma → σ !! b = Some mb → reachable ma → reachable mb →
  a ≠ b →
  operator_assign a a σ = Val tt σ
  ∧ ∃ mb', operator_assign b a σ = Val tt (<[b := mb']> σ)
      ∧ reachable mb'
      ∧ entries mb' = reverse (entries ma)
      ∧ entries mb' ≡ₚ entries ma
      ∧ size_ mb' = size_ ma
      ∧ (∀ k, outcome (at_ k mb') = outcome (at_ k ma))
      ∧ <[b := mb']> σ !! a = Some ma
      ∧ (∀ p, ∃ σ', call b (insert p) (<[b := mb']> σ) = Val tt σ'
                    ∧ σ' !! a = Some ma)
      ∧ (∀ k, ∃ σ', call b (erase k) (<[b := mb']> σ) = Val tt σ'
                    ∧ σ' !! a = Some ma)
      ∧ (∀ p, ∃ σ', call a (insert p) (<[b := mb']> σ) = Val tt σ'
                    ∧ σ' !! b = Some mb')
      ∧ (∀ k, ∃ σ', call a (erase k) (<[b := mb']> σ) = Val tt σ'
                    ∧ σ' !! b = Some mb').
Proof.
  intros Ha Hb Hra Hrb Hne. split; [apply operator_assign_self|].
  pose proof (reachable_good _ Hra) as Hga.
  pose proof (reachable_good _ Hrb) as Hgb.
  destruct (assign_from_good (elements_ ma) mb Hgb)
    as (mb' & Hrun & Hgb' & _ & Hl).
  assert (Hrb' : reachable mb') by by apply (reachable_assign mb ma).
  assert (Hentries : entries mb' = reverse (entries ma)).
  { unfold entries. rewrite Hl, inserted_range_fresh, app_nil_r; [done| |].
    - rewrite <-keys_entries. apply Hga.
    - intros p _. apply not_elem_of_nil. }
  assert (Hperm : entries mb' ≡ₚ entries ma).
  { rewrite Hentries. apply reverse_Permutation. }
  assert (Hlookup_a : <[b := mb']> σ !! a = Some ma)
    by by rewrite lookup_insert_ne.
  assert (Hlookup_b : <[b := mb']> σ !! b = Some mb')
    by by rewrite lookup_insert_eq.
  exists mb'. split; [by apply operator_assign_run with mb ma|].
  split; [done|]. split; [done|]. split; [done|]. split.
  { rewrite (wf_size _ (good_wf _ Hgb')), (wf_size _ (good_wf _ Hga)).
    apply (f_equal length) in Hentries. unfold entries in Hentries.
    by rewrite length_reverse, !length_fmap in Hentries. }
  split. { intros k. apply at_of_entries; [apply Hga|apply Hgb'|done]. }
  split; [done|].
  split; [|split; [|split]].
  - intros p. destruct (insert_good p mb' Hgb') as (m' & Hrun' & _).
    eexists. split; [by apply call_run with mb'|]. by rewrite lookup_insert_ne.
  - intros k. destruct (erase_good k mb' Hgb') as (m' & Hrun' & _).
    eexists. split; [by apply call_run with mb'|]. by rewrite lookup_insert_ne.
  - intros p. destruct (insert_good p ma Hga) as (m' & Hrun' & _).
    eexists. split; [by apply call_run with ma|]. by rewrite lookup_insert_ne.
  - intros k. destruct (erase_good k ma Hga) as (m' & Hrun' & _).
    eexists. split; [by apply call_run with ma|]. by rewrite lookup_insert_ne.
Qed.

(** C10. Copy assignment keeps the hash function of the target: after
    [b = a] the field [hasher_] of [b], and so what [hash_function()]
    returns, is what it was before, whatever the hash function of [a]. *)
Theorem copy_assignment_keeps_hasher (σ : Store) a b ma mb :
  σ !! a = Some ma → σ !! b = Some mb → reachable ma → reachable mb →
  ∃ σ' mb', operator_assign b a σ = Val tt σ'
            ∧ σ' !! b = Some mb'
            ∧ hasher_ mb' = hasher_ mb
            ∧ call b hash_function σ' = Val (hasher_ mb) σ'.
Proof.
  intros Ha Hb Hra Hrb. destruct (decide (b = a)) as [->|Hne].
  - exists σ, mb. rewrite operator_assign_self. split; [done|].
    split; [done|]. split; [done|].
    rewrite (call_run a hash_function σ mb (hasher_ mb) mb Hb eq_refl).
    by rewrite insert_id.
  - destruct (assign_from_good (elements_ ma) mb (reachable_good _ Hrb))
      as (mb' & Hrun & _ & [Hh _] & _).
    exists (<[b := mb']> σ), mb'.
    split; [by apply operator_assign_run with mb ma|].
    split; [by rewrite lookup_insert_eq|]. split; [done|].
    erewrite call_run; [|apply lookup_insert_eq|reflexivity].
    unfold hash_function, gets. by rewrite insert_insert_eq, Hh.
Qed.

(** ** Further properties of the class *)

Lemma node_of_None a l : a ∉ addrs l → node_of (node_at a) l = None.
Proof.
  simpl. induction l as [|x l IH]; [done|]. simpl.
  intros [Hne Hin]%not_elem_of_cons.
  rewrite bool_decide_eq_false_2 by done. by apply IH.
Qed.

Lemma node_of_cons_ne x l a :
  addr x ≠ a → node_of (node_at a) (x :: l) = node_of (node_at a) l.
Proof. intros Hne. simpl. by rewrite bool_decide_eq_false_2. Qed.

Lemma iterate_suffix l1 l2 :
  NoDup (addrs (l1 ++ l2)) →
  iterate (length l2) (begin_of l2) (l1 ++ l2) = Some (elem <$> l2).
Proof.
  revert l1. induction l2 as [|x r IH]; intros l1 Hnd; [done|].
  change (begin_of (x :: r)) with (node_at (addr x)).
  cbn [length iterate]. rewrite decide_False by done.
  rewrite node_of_present by done. cbn [mbind option_bind].
  unfold next_of. cbn [after]. rewrite after_node_self by done.
  cbn [fmap option_fmap option_map mbind option_bind].
  assert (Heq : l1 ++ x :: r = (l1 ++ [x]) ++ r) by by rewrite <-(assoc_L (++)).
  rewrite Heq, IH by by rewrite <-Heq. done.
Qed.

Lemma first_with_Some k ps p : first_with k ps = Some p → p ∈ ps ∧ p.1 = k.
Proof.
  intros [Hin Hk]%find_some. split; [by apply list_elem_of_In|].
  by apply bool_decide_eq_true in Hk.
Qed.

Lemma first_with_None k ps : first_with k ps = None → k ∉ ps.*1.
Proof.
  intros Hnone (p & -> & Hin)%list_elem_of_fmap.
  apply list_elem_of_In in Hin.
  pose proof (find_none _ _ Hnone p Hin) as Hf. simpl in Hf.
  by apply bool_decide_eq_false in Hf.
Qed.

Lemma at_first_with m k :
  wf m →
  at_ k m = match first_with k (entries m) with
            | Some p => Val p.2 m
            | None => Throw out_of_range m
            end.
Proof.
  intros Hwf. destruct (first_with k (entries m)) as [[k' v]|] eqn:Hf.
  - apply first_with_Some in Hf as [Hin Hk]. simpl in Hk. subst k'.
    destruct (entry_node _ _ _ Hin) as (n & Hn & <- & <-). by apply at_present.
  - apply first_with_None in Hf. apply at_absent; [done|].
    by rewrite keys_entries.
Qed.

Lemma first_with_cons k p ps :
  first_with k (p :: ps) = if bool_decide (p.1 = k) then Some p else first_with k ps.
Proof. done. Qed.

Lemma first_with_inserted_range k ps l :
  first_with k (elem <$> inserted_range ps l) =
  match first_with k (elem <$> l) with
  | Some q => Some q
  | None => first_with k ps
  end.
Proof.
  revert l. induction ps as [|p ps IH]; intros l.
  - simpl. by destruct (first_with k (elem <$> l)).
  - change (inserted_range (p :: ps) l) with (inserted_range ps (inserted p l)).
    rewrite IH, (first_with_cons k p ps). unfold inserted.
    destruct (decide (p.1 ∈ keys l)) as [Hin|Hnotin].
    + destruct (first_with k (elem <$> l)) as [q|] eqn:Hf; [done|].
      destruct (bool_decide_reflect (p.1 = k)) as [Hk|Hk]; [|done].
      apply first_with_None in Hf. destruct Hf.
      by rewrite <-keys_entries, <-Hk.
    + unfold push_front. rewrite fmap_cons, first_with_cons. simpl.
      destruct (bool_decide_reflect (p.1 = k)) as [Hk|Hk]; [|done].
      destruct (first_with k (elem <$> l)) as [q|] eqn:Hf; [|done].
      apply first_with_Some in Hf as [Hq Hqk]. destruct Hnotin.
      rewrite Hk, <-Hqk, keys_entries. by apply list_elem_of_fmap_2.
Qed.

Lemma keys_inserted_range k ps l :
  k ∈ keys (inserted_range ps l) ↔ k ∈ keys l ∨ k ∈ ps.*1.
Proof.
  revert l. induction ps as [|p ps IH]; intros l.
  - simpl. split; [by left|]. by intros [?|?%elem_of_nil].
  - change (inserted_range (p :: ps) l) with (inserted_range ps (inserted p l)).
    rewrite IH. unfold inserted. rewrite fmap_cons, elem_of_cons.
    destruct (decide (p.1 ∈ keys l)) as [Hin|Hnotin].
    + split; [tauto|]. intros [?|[->|?]]; tauto.
    + simpl. rewrite elem_of_cons. change (key_of _) with p.1. split.
      * intros [[->|?]|?]; tauto.
      * intros [?|[->|?]]; tauto.
Qed.

Lemma insert_range_reachable ps m m' :
  reachable m → insert_range ps m = Val tt m' → reachable m'.
Proof.
  revert m. induction ps as [|p ps IH]; intros m Hm.
  - by intros [= <-].
  - destruct (insert_good p m (reachable_good m Hm)) as (m1 & Hrun & _).
    unfold insert_range in *. simpl for_each. run Hrun.
    apply IH. by apply (reachable_insert m p).
Qed.

(** X1. [clear] empties the map and keeps the table: afterwards there is
    no entry, [size_] is zero, every bucket is empty, the bucket count
    and the hash function are what they were, [find] returns [end()] and
    [at] throws for every key. *)
Theorem clear_resets m :
  reachable m →
  ∃ m', clear m = Val tt m' ∧ elements_ m' = [] ∧ size_ m' = 0
        ∧ (∀ b, b ∈ table_ m' → b = [])
        ∧ bucket_count m' = bucket_count m ∧ hasher_ m' = hasher_ m
        ∧ ∀ k, find k m' = Val past_end m'
               ∧ at_ k m' = Throw out_of_range m'.
Proof.
  intros [Hwf _ _]%reachable_good.
  destruct (clear_spec m Hwf) as (m' & Hrun & Hwf' & Hh & Hl & Ht).
  exists m'. split; [done|]. split; [done|].
  split; [by rewrite (wf_size _ Hwf'), Hl|]. split; [|split; [|split; [done|]]].
  - intros b [j Hj]%list_elem_of_lookup.
    pose proof (wf_indexed _ Hwf' _ _ Hj) as Hb. rewrite Hl in Hb.
    by apply Permutation_nil_r in Hb.
  - unfold bucket_count. by rewrite Ht, cleared_length.
  - intros k. assert (Hk : k ∉ keys (elements_ m'))
      by (rewrite Hl; apply not_elem_of_nil).
    split; [by apply find_absent|by apply at_absent].
Qed.

(** X2. The range and initializer-list constructors keep the first pair
    of every key: construction never fails, [at(k)] on the new map
    returns the value of the first pair with the key [k] in the range
    and throws when the range has none, and [size_] is the number of
    distinct keys of the range. *)
Theorem range_constructor_first_wins its h :
  ∃ m, HashMap_range its h = Val tt m ∧ reachable m ∧ hasher_ m = h
       ∧ (∀ k, at_ k m = match first_with k its with
                         | Some p => Val p.2 m
                         | None => Throw out_of_range m
                         end)
       ∧ size_ m = length (remove_dups its.*1).
Proof.
  destruct (insert_range_good its (HashMap_new h) (new_good h))
    as (m & Hrun & [Hwf _ _] & [Hh _] & Hl).
  exists m. split; [done|].
  split; [by apply (insert_range_reachable its (HashMap_new h) m (reachable_new h))|].
  split; [done|]. split.
  - intros k. rewrite (at_first_with m k Hwf). unfold entries.
    by rewrite Hl, first_with_inserted_range.
  - rewrite (wf_size _ Hwf), <-(length_fmap key_of). fold (keys (elements_ m)).
    apply Permutation_length, NoDup_Permutation.
    + apply Hwf.
    + apply NoDup_remove_dups.
    + intros k. rewrite elem_of_remove_dups, Hl, keys_inserted_range.
      split; [by intros [?%elem_of_nil|?]|by right].
Qed.

(** X3. [empty()] and [size()] agree: in a reachable state [empty()]
    holds exactly when [size()] is zero, although the one reads the list
    and the other the counter. *)
Theorem empty_iff_size_zero m :
  reachable m →
  ∃ b n, empty m = Val b m ∧ size m = Val n m ∧ (b = true ↔ n = 0).
Proof.
  intros [Hwf _ _]%reachable_good.
  exists (bool_decide (elements_ m = [])), (size_ m).
  split; [done|]. split; [done|].
  rewrite bool_decide_eq_true, (wf_size _ Hwf). split.
  - by intros ->.
  - by intros ?%length_zero_iff_nil.
Qed.

(** X4. [find] and [at] agree, and [find] changes nothing: [find(k)] is
    [end()] exactly when [at(k)] throws, and otherwise it is an iterator
    to a node of the list with the key [k] whose value [at(k)] returns. *)
Theorem find_agrees_with_at m k :
  reachable m →
  ∃ it, find k m = Val it m
        ∧ ((it = past_end ∧ ¬ contains m k
            ∧ at_ k m = Throw out_of_range m)
           ∨ (∃ n, it = node_at (addr n)
                   ∧ node_of it (elements_ m) = Some n
                   ∧ key_of n = k ∧ at_ k m = Val (value_of n) m)).
Proof.
  intros [Hwf _ _]%reachable_good.
  destruct (decide (k ∈ keys (elements_ m))) as [Hin|Hnotin].
  - apply list_elem_of_fmap in Hin as (n & -> & Hn).
    exists (node_at (addr n)). split; [by apply find_present|].
    right. exists n. split; [done|].
    split; [apply node_of_elem; [apply Hwf|done]|].
    split; [done|by apply at_present].
  - exists past_end. split; [by apply find_absent|]. left.
    split; [done|]. split; [done|by apply at_absent].
Qed.

(** X5. Iteration from [begin()] to [end()] visits every entry once, in
    the order of the list, and takes [size()] rounds. *)
Theorem iteration_visits_entries m :
  reachable m →
  ∃ first, begin_ m = Val first m ∧ end_ m = Val past_end m
           ∧ iterate (size_ m) first (elements_ m) = Some (entries m)
           ∧ length (entries m) = size_ m.
Proof.
  intros [Hwf _ _]%reachable_good.
  exists (begin_of (elements_ m)). split; [done|]. split; [done|]. split.
  - rewrite (wf_size _ Hwf). apply (iterate_suffix []). apply Hwf.
  - unfold entries. by rewrite length_fmap, (wf_size _ Hwf).
Qed.

(** X6. [insert] of an absent key puts the new entry in front and moves
    no other: [begin()] then points at the new entry, iteration yields it
    first and the old entries after it in their old order, and every
    iterator to an old entry still points at that entry. *)
Theorem insert_front_keeps_iterators m k v :
  reachable m → ¬ contains m k →
  ∃ m', insert (k, v) m = Val tt m'
        ∧ entries m' = (k, v) :: entries m
        ∧ (∃ first n, begin_ m' = Val first m'
                      ∧ node_of first (elements_ m') = Some n
                      ∧ elem n = (k, v))
        ∧ ∀ n, n ∈ elements_ m →
               node_of (node_at (addr n)) (elements_ m') = Some n.
Proof.
  intros Hgood%reachable_good Habsent.
  destruct (insert_good (k, v) m Hgood) as (m' & Hrun & _ & _ & Hl).
  unfold inserted in Hl. rewrite decide_False in Hl by done.
  exists m'. split; [done|]. unfold entries, begin_, gets. rewrite Hl.
  split; [done|]. split.
  - exists (node_at (fresh_addr (elements_ m))),
      {| addr := fresh_addr (elements_ m); elem := (k, v) |}.
    split; [done|]. split; [|done].
    simpl. by rewrite bool_decide_eq_true_2.
  - intros n Hn. unfold push_front. rewrite node_of_cons_ne.
    + apply node_of_elem; [apply Hgood|done].
    + simpl. intros Heq. apply (fresh_addr_fresh (elements_ m)).
      rewrite Heq. by apply (list_elem_of_fmap_2 addr).
Qed.

(** X7. [erase] invalidates the iterators to the erased entry and no
    others: after [erase(k)] a node with another key is still where its
    iterator points, and the address of the node with the key [k] is
    that of no node. *)
Theorem erase_keeps_other_iterators m k :
  reachable m →
  ∃ m', erase k m = Val tt m'
        ∧ (∀ n, n ∈ elements_ m → key_of n ≠ k →
                node_of (node_at (addr n)) (elements_ m') = Some n)
        ∧ (∀ n, n ∈ elements_ m → key_of n = k →
                node_of (node_at (addr n)) (elements_ m') = None).
Proof.
  intros [Hwf _ _]%reachable_good.
  destruct (erase_spec k m Hwf) as (m' & Hrun & Hwf' & _ & Hl & _).
  exists m'. split; [done|]. split.
  - intros n Hn Hne. apply node_of_elem; [apply Hwf'|].
    rewrite Hl. by apply list_elem_of_filter.
  - intros n Hn Hk. apply node_of_None. rewrite Hl.
    intros (n' & Ha & [Hne Hn']%list_elem_of_filter)%list_elem_of_fmap.
    assert (n = n') as <- by (eapply addr_inj; [apply Hwf|done..]). done.
Qed.

(** X8. [insert] of an absent key followed by [erase] of that key gives
    back the element list, node for node, with [size_] and the result of
    every lookup; the table may have grown in between. *)
Theorem insert_then_erase_restores m k v :
  reachable m → ¬ contains m k →
  ∃ m1 m2, insert (k, v) m = Val tt m1 ∧ erase k m1 = Val tt m2
           ∧ preserved m m2
           ∧ bucket_count m ≤ bucket_count m2.
Proof.
  intros Hgood%reachable_good Habsent. pose proof (good_wf _ Hgood) as Hwf.
  destruct (insert_good (k, v) m Hgood) as (m1 & Hrun1 & Hgood1 & [_ Hle1] & Hl1).
  destruct (erase_good k m1 Hgood1) as (m2 & Hrun2 & [Hwf2 _ _] & [_ Hle2] & Hl2).
  unfold inserted in Hl1. rewrite decide_False in Hl1 by done.
  assert (Hl : elements_ m2 = elements_ m).
  { rewrite Hl2, Hl1. unfold erased, push_front.
    rewrite filter_cons_False by (by intros ?). by apply erased_absent. }
  exists m1, m2. split; [done|]. split; [done|]. split.
  - split; [done|]. split; [by rewrite (wf_size _ Hwf2), Hl, (wf_size _ Hwf)|].
    intros k'. by apply lookup_same.
  - unfold bucket_count. lia.
Qed.

(** X9. [operator[]] settles after one call: a second [operator[]] with
    the same key returns the same reference and changes nothing, and
    [at] then returns the value referred to, which is the default value
    if the key was absent and the value it had otherwise. *)
Theorem index_then_at m k :
  reachable m →
  ∃ a m', index k m = Val a m' ∧ index k m' = Val a m'
          ∧ ∃ v, at_ k m' = Val v m'
                 ∧ (¬ contains m k → v = default_value)
                 ∧ (∀ v0, (k, v0) ∈ entries m → v = v0).
Proof.
  intros Hgood%reachable_good. pose proof (good_wf _ Hgood) as Hwf.
  destruct (index_good k m Hgood)
    as (a & m' & Hrun & [Hwf' _ _] & _ & Hl & n & Hn & <- & <-).
  exists (addr n), m'. split; [done|]. split; [by apply index_present|].
  exists (value_of n). split; [by apply at_present|].
  unfold inserted in Hl. split.
  - intros Habsent. rewrite decide_False in Hl by done.
    rewrite Hl in Hn. apply elem_of_cons in Hn as [->|Hn]; [done|].
    destruct Habsent. by apply (list_elem_of_fmap_2 key_of).
  - intros v0 Hin. destruct (entry_node _ _ _ Hin) as (n0 & Hn0 & Hk0 & <-).
    rewrite decide_True in Hl by (rewrite <-Hk0; by apply (list_elem_of_fmap_2 key_of)).
    rewrite Hl in Hn.
    by rewrite (key_inj _ n n0 (wf_keys _ Hwf) Hn Hn0).
Qed.

(** X10. Replacing a value: [insert] does not overwrite, but [erase(k)]
    followed by [insert(k, v)] leaves [k] with the value [v], in front of
    the other entries, whether or not [k] was present. *)
Theorem erase_then_insert_updates m k v :
  reachable m →
  ∃ m1 m2, erase k m = Val tt m1 ∧ insert (k, v) m1 = Val tt m2
           ∧ at_ k m2 = Val v m2
           ∧ entries m2 = (k, v) :: others k (entries m).
Proof.
  intros Hgood%reachable_good.
  destruct (erase_good k m Hgood) as (m1 & Hrun1 & Hgood1 & _ & Hl1).
  destruct (insert_good (k, v) m1 Hgood1) as (m2 & Hrun2 & [Hwf2 _ _] & _ & Hl2).
  assert (Habsent : k ∉ keys (elements_ m1)).
  { rewrite Hl1.
    intros (n & -> & [Hne _]%list_elem_of_filter)%list_elem_of_fmap. done. }
  unfold inserted in Hl2. rewrite decide_False in Hl2 by done.
  exists m1, m2. split; [done|]. split; [done|]. split.
  - apply (at_present m2 Hwf2
             {| addr := fresh_addr (elements_ m1); elem := (k, v) |}).
    rewrite Hl2. apply elem_of_cons. by left.
  - unfold entries. rewrite Hl2, Hl1. unfold push_front.
    by rewrite fmap_cons, erased_entries.
Qed.

(** X11. Keys are unique: in a reachable state no two entries have the
    same key and no two nodes the same address. *)
Theorem unique_keys m :
  reachable m → NoDup (entries m).*1 ∧ NoDup (addrs (elements_ m)).
Proof.
  intros [Hwf _ _]%reachable_good. split; [|apply Hwf].
  unfold entries. rewrite <-keys_entries. apply Hwf.
Qed.

(** X12. No marker dangles: in a reachable state every marker of every
    bucket is a position of the list whose successor is an entry that
    hashes to this bucket, and no marker occurs twice in the table. *)
Theorem markers_valid m :
  reachable m →
  (∀ j b mk, table_ m !! j = Some b → mk ∈ b →
     ∃ n, n ∈ elements_ m
          ∧ next_of mk (elements_ m) = Some (node_at (addr n))
          ∧ hasher_ m (key_of n) `mod` bucket_count m = j)
  ∧ NoDup (concat (table_ m)).
Proof.
  intros [Hwf _ _]%reachable_good. split.
  - intros j b mk Hj Hmk. rewrite (wf_indexed _ Hwf _ _ Hj) in Hmk.
    apply elem_of_expected in Hmk as (n & Hin & Hg).
    exists n. split; [by eapply marks_node|].
    split; [apply marks_next_of; [apply Hwf|done]|done].
  - rewrite (wf_concat m Hwf). apply marks_NoDup, Hwf.
Qed.

(** X13. The hash function is fixed at construction: no public mutating
    call changes what [hash_function()] returns. *)
Theorem hasher_constant m m' :
  reachable m → step m m' →
  hasher_ m' = hasher_ m ∧ hash_function m' = Val (hasher_ m) m'.
Proof.
  intros Hgood%reachable_good Hstep.
  destruct (step_good m m' Hgood Hstep) as [_ [Hh _]].
  split; [done|]. unfold hash_function, gets. by rewrite Hh.
Qed.

(** X14. Growth policy of [insert]: a present key changes neither
    [size_] nor the bucket count; an absent key adds one to [size_], and
    the bucket count doubles exactly when the map was full, that is when
    [size_] was equal to the bucket count. *)
Theorem insert_growth m p :
  reachable m →
  ∃ m', insert p m = Val tt m'
        ∧ (contains m p.1 →
             size_ m' = size_ m ∧ bucket_count m' = bucket_count m)
        ∧ (¬ contains m p.1 →
             size_ m' = S (size_ m)
             ∧ (size_ m = bucket_count m →
                  bucket_count m' = 2 * bucket_count m)
             ∧ (size_ m < bucket_count m →
                  bucket_count m' = bucket_count m)).
Proof.
  intros [Hwf Hload _]%reachable_good.
  destruct (insert_spec p m Hwf) as (m' & Hrun & Hwf' & _ & Hl & Hlen).
  exists m'. split; [done|]. unfold bucket_count, contains, inserted in *.
  rewrite (wf_size _ Hwf'), Hl. split.
  - intros Hin. rewrite decide_True by done.
    rewrite decide_False in Hlen by tauto. by rewrite (wf_size _ Hwf).
  - intros Hnotin. rewrite decide_False by done.
    split; [by rewrite (wf_size _ Hwf)|]. split.
    + intros Hfull. rewrite decide_True in Hlen by (split; [done|lia]). done.
    + intros Hroom. rewrite decide_False in Hlen by lia. done.
Qed.

(** X15. [find_prev_in_bucket] finds a key in its own bucket only: for
    every bucket of a reachable state the scan returns normally; it stops
    before the end exactly when the key is present and the bucket is
    bucket [hash(k) mod bucket_count], and then at a marker whose
    successor has the key. *)
Theorem find_prev_in_bucket_spec m j k :
  reachable m → j < bucket_count m →
  ∃ b i, table_ m !! j = Some b ∧ find_prev_in_bucket j k m = Val i m
         ∧ i ≤ length b
         ∧ (i < length b ↔
            contains m k ∧ j = hasher_ m k `mod` bucket_count m)
         ∧ ∀ mk, b !! i = Some mk →
                 ∃ n, succ_node mk (elements_ m) = Some n ∧ key_of n = k.
Proof.
  intros [Hwf _ _]%reachable_good Hj.
  destruct (lookup_lt_is_Some_2 (table_ m) j Hj) as [b Hb]. exists b.
  pose proof (wf_addrs _ Hwf) as Haddrs. pose proof (wf_keys _ Hwf) as Hkeys.
  pose proof (wf_indexed _ Hwf) as Hidx.
  destruct (decide (k ∈ keys (elements_ m)
                    ∧ j = hasher_ m k `mod` bucket_count m)) as [[Hin ->]|Hno].
  - apply list_elem_of_fmap in Hin as (n & -> & Hn).
    destruct (node_marked before_begin _ _ Hn) as [p Hp].
    destruct (lookup_present m Hwf p n b Hp Hb) as (i & Hrun & Hi).
    exists i. split; [done|]. split; [done|].
    pose proof (lookup_lt_Some _ _ _ Hi) as Hlt.
    split; [lia|]. split.
    + split; [|done]. intros _. split; [|done].
      by apply (list_elem_of_fmap_2 key_of).
    + intros mk Hmk. assert (mk = p) as -> by congruence.
      exists n. split; [by apply marks_succ_node|done].
  - exists (length b). split; [done|].
    assert (Hscan : scan (elements_ m) k b = Some (length b)).
    { apply scan_no_marker; [done| |].
      - intros mk. eapply table_bucket_markers; [exact Hidx|exact Hb].
      - intros p n Hp <- Hpb. rewrite (Hidx _ _ Hb) in Hpb.
        apply elem_of_expected in Hpb as (n' & Hp' & Hg).
        assert (n' = n) as -> by by eapply marks_fun.
        apply Hno. split; [|done].
        apply (list_elem_of_fmap_2 key_of). by eapply marks_node. }
    split; [by apply find_prev_in_bucket_run with b|]. split; [done|].
    split; [split; [lia|done]|].
    intros mk Hmk. apply lookup_lt_Some in Hmk. lia.
Qed.

(** X16. [insert] leaves the other keys alone: whatever pair is
    inserted, [find] and [at] of every other key give what they gave
    before, [find] the same node. *)
Theorem insert_frames_other_keys m p k :
  reachable m → k ≠ p.1 →
  ∃ m', insert p m = Val tt m'
        ∧ outcome (find k m') = outcome (find k m)
        ∧ outcome (at_ k m') = outcome (at_ k m).
Proof.
  intros [Hwf _ _]%reachable_good Hne.
  destruct (insert_spec p m Hwf) as (m' & Hrun & Hwf' & _ & Hl & _).
  exists m'. split; [done|]. unfold inserted in Hl.
  destruct (decide (p.1 ∈ keys (elements_ m))) as [_|Hnew];
    [by apply lookup_same|].
  destruct (decide (k ∈ keys (elements_ m))) as [Hin|Hnotin].
  - apply list_elem_of_fmap in Hin as (n & -> & Hn).
    assert (Hn' : n ∈ elements_ m') by (rewrite Hl; apply elem_of_cons; by right).
    rewrite (find_present m Hwf n Hn), (at_present m Hwf n Hn).
    by rewrite (find_present m' Hwf' n Hn'), (at_present m' Hwf' n Hn').
  - assert (Hnotin' : k ∉ keys (elements_ m')).
    { rewrite Hl. simpl. by apply not_elem_of_cons. }
    rewrite (find_absent m Hwf k Hnotin), (at_absent m Hwf k Hnotin).
    by rewrite (find_absent m' Hwf' k Hnotin'), (at_absent m' Hwf' k Hnotin').
Qed.

Lemma insert_tight p m :
  good m → (length (table_ m) = 1 ∨ length (table_ m) < 2 * size_ m) →
  ∃ m', insert p m = Val tt m' ∧ good m'
        ∧ (length (table_ m') = 1 ∨ length (table_ m') < 2 * size_ m').
Proof.
  intros Hgood Htight. pose proof (good_wf _ Hgood) as Hwf.
  pose proof (good_load _ Hgood) as Hload. unfold load_ok in Hload.
  destruct (insert_good p m Hgood) as (m' & Hrun & Hgood' & _ & Hl).
  destruct (insert_spec p m Hwf) as (m'' & Hrun' & _ & _ & _ & Hlen).
  assert (m'' = m') as -> by congruence.
  exists m'. split; [done|]. split; [done|].
  assert (Hsz : size_ m' = length (inserted p (elements_ m)))
    by by rewrite (wf_size _ (good_wf _ Hgood')), Hl.
  unfold inserted in Hsz. rewrite (wf_size _ Hwf) in *.
  destruct (decide (p.1 ∈ keys (elements_ m))) as [Hin|Hnotin].
  - rewrite decide_False in Hlen by tauto. lia.
  - simpl in Hsz. case_decide; lia.
Qed.

Lemma insert_range_tight ps m :
  good m → (length (table_ m) = 1 ∨ length (table_ m) < 2 * size_ m) →
  ∃ m', insert_range ps m = Val tt m' ∧ good m'
        ∧ (length (table_ m') = 1 ∨ length (table_ m') < 2 * size_ m').
Proof.
  revert m. induction ps as [|p ps IH]; intros m Hgood Htight.
  - by exists m.
  - destruct (insert_tight p m Hgood Htight) as (m1 & Hrun1 & Hgood1 & Htight1).
    destruct (IH m1 Hgood1 Htight1) as (m' & Hrun' & Hgood' & Htight').
    exists m'. split; [|done].
    unfold insert_range in *. simpl for_each. by run Hrun1.
Qed.

(** X17. Memory safety: on a reachable map no member function steps on
    an iterator it may not use.  Every call returns normally, except that
    [at] may throw [std::out_of_range]; [find], [at], [begin], [size] and
    [empty] leave the map as it is. *)
Theorem no_undefined_behaviour m :
  reachable m →
  (∀ p, ∃ m', insert p m = Val tt m')
  ∧ (∀ k, ∃ m', erase k m = Val tt m')
  ∧ (∀ k, ∃ a m', index k m = Val a m')
  ∧ (∃ m', clear m = Val tt m')
  ∧ (∃ m', rehash m = Val tt m')
  ∧ (∀ k, ∃ it, find k m = Val it m)
  ∧ (∀ k, at_ k m = Throw out_of_range m ∨ ∃ v, at_ k m = Val v m)
  ∧ (∃ it, begin_ m = Val it m) ∧ (∃ n, size m = Val n m)
  ∧ (∃ b, empty m = Val b m).
Proof.
  intros Hm. destruct (step_total m Hm) as (Hi & He & Hx & Hc & Hr & _).
  pose proof (good_wf _ (reachable_good m Hm)) as Hwf.
  split; [done|]. split; [done|]. split; [done|]. split; [done|].
  split; [done|]. split; [|split].
  - intros k. destruct (decide (k ∈ keys (elements_ m))) as [Hin|Hnotin].
    + apply list_elem_of_fmap in Hin as (n & -> & Hn).
      eexists. by apply find_present.
    + eexists. by apply find_absent.
  - intros k. destruct (decide (k ∈ keys (elements_ m))) as [Hin|Hnotin].
    + apply list_elem_of_fmap in Hin as (n & -> & Hn).
      right. eexists. by apply at_present.
    + left. by apply at_absent.
  - split; [by eexists|]. split; by eexists.
Qed.

(** X18. A map built by the range or the initializer-list constructor
    has a tight table: [size_] is at most the bucket count, and the
    bucket count is one or less than twice [size_]. *)
Theorem range_constructor_table_tight its h :
  ∃ m, HashMap_range its h = Val tt m
       ∧ size_ m ≤ bucket_count m
       ∧ (bucket_count m = 1 ∨ bucket_count m < 2 * size_ m).
Proof.
  destruct (insert_range_tight its (HashMap_new h) (new_good h))
    as (m & Hrun & Hgood & Htight); [by left|].
  exists m. split; [done|]. split; [apply Hgood|done].
Qed.

End HashMap.

(** ** The claims at concrete maps

    [example_map] is the state after [insert] of (10, 1), (11, 2) and
    (12, 3) into a new map whose hash function is the identity: the
    second and the third [insert] rehash.  [example_other] uses another
    hash function and holds the single entry (7, 70). *)

Abbreviation example_map :=
  ({| hasher_ := λ k : nat, k;
      elements_ := [ {| addr := 3; elem := (12, 3) |};
                     {| addr := 2; elem := (11, 2) |};
                     {| addr := 1; elem := (10, 1) |} ];
      table_ := [[before_begin]; []; [node_at 2]; [node_at 3]];
      size_ := 3 |} : HashMap).

Abbreviation example_other :=
  ({| hasher_ := λ k : nat, 2 * k + 1;
      elements_ := [ {| addr := 1; elem := (7, 70) |} ];
      table_ := [[before_begin]];
      size_ := 1 |} : HashMap).

Abbreviation example_store :=
  (<[0 := example_map]> (<[1 := example_other]> ∅) : gmap nat HashMap).

Lemma example_map_reachable : reachable 0 example_map.
Proof.
  apply (reachable_insert 0
           {| hasher_ := λ k : nat, k;
              elements_ := [ {| addr := 2; elem := (11, 2) |};
                             {| addr := 1; elem := (10, 1) |} ];
              table_ := [[node_at 2]; [before_begin]];
              size_ := 2 |} (12, 3)); [|reflexivity].
  apply (reachable_insert 0
           {| hasher_ := λ k : nat, k;
              elements_ := [ {| addr := 1; elem := (10, 1) |} ];
              table_ := [[before_begin]];
              size_ := 1 |} (11, 2)); [|reflexivity].
  apply (reachable_insert 0 (HashMap_new (λ k : nat, k)) (10, 1));
    [|reflexivity].
  apply reachable_new.
Defined.

Lemma example_other_reachable : reachable 0 example_other.
Proof.
  apply (reachable_insert 0 (HashMap_new (λ k : nat, 2 * k + 1)) (7, 70));
    [|reflexivity].
  apply reachable_new.
Defined.

Lemma example_map_lacks_13 : ¬ contains example_map 13.
Proof.
  unfold contains. simpl. intros Hin.
  repeat (apply elem_of_cons in Hin as [Hin|Hin]; [discriminate Hin|]).
  by apply elem_of_nil in Hin.
Defined.

Lemma marker_size_invariant_witness :
  reachable 0 example_map
  ∧ (∀ i n, elements_ example_map !! i = Some n →
       markers_of (addr n) example_map = 1
       ∧ ∃ b mk,
           table_ example_map
             !! (hasher_ example_map (key_of n) `mod` bucket_count example_map)
             = Some b
           ∧ mk ∈ b
           ∧ next_of mk (elements_ example_map) = Some (node_at (addr n)))
  ∧ size_ example_map = length (elements_ example_map)
  ∧ size_ example_map = length (concat (table_ example_map)).
Proof.
  split; [exact example_map_reachable|].
  apply (marker_size_invariant 0 example_map example_map_reachable).
Defined.

Lemma insert_then_at_witness :
  reachable 0 example_map ∧ ¬ contains example_map 13
  ∧ ∃ m', insert (13, 4) example_map = Val tt m' ∧ at_ 13 m' = Val 4 m'.
Proof.
  split; [exact example_map_reachable|]. split; [exact example_map_lacks_13|].
  apply (insert_then_at 0 example_map 13 4 example_map_reachable
           example_map_lacks_13).
Defined.

Lemma insert_existing_is_noop_witness :
  reachable 0 example_map ∧ (11, 2) ∈ entries example_map
  ∧ insert (11, 9) example_map = Val tt example_map
  ∧ (∀ vs, insert_range ((λ v', (11, v')) <$> vs) example_map
           = Val tt example_map)
  ∧ at_ 11 example_map = Val 2 example_map
  ∧ (∃ n, find 11 example_map = Val (node_at (addr n)) example_map
          ∧ node_of (node_at (addr n)) (elements_ example_map) = Some n
          ∧ elem n = (11, 2))
  ∧ length (filter (λ p, p.1 = 11) (entries example_map)) = 1.
Proof.
  assert (Hin : (11, 2) ∈ entries example_map)
    by (apply (list_elem_of_lookup_2 _ 1); reflexivity).
  split; [exact example_map_reachable|]. split; [exact Hin|].
  apply (insert_existing_is_noop 0 example_map 11 2 9 example_map_reachable Hin).
Defined.

Lemma rehash_preserves_contents_witness :
  reachable 0 example_map
  ∧ (∃ m', rehash example_map = Val tt m' ∧ preserved example_map m'
           ∧ bucket_count m' = 2 * bucket_count example_map)
  ∧ (∀ p, ¬ contains example_map p.1 →
         bucket_count example_map < S (size_ example_map) →
         ∃ m1 m', insert p example_map = rehash m1 ∧ rehash m1 = Val tt m'
                  ∧ elements_ m1 = push_front p (elements_ example_map)
                  ∧ preserved m1 m'
                  ∧ bucket_count m' = 2 * bucket_count example_map).
Proof.
  split; [exact example_map_reachable|].
  apply (rehash_preserves_contents 0 example_map example_map_reachable).
Defined.

Lemma erase_correct_witness :
  reachable 0 example_map
  ∧ ∃ m', erase 11 example_map = Val tt m'
          ∧ (contains example_map 11 →
               find 11 m' = Val past_end m'
               ∧ S (size_ m') = size_ example_map
               ∧ entries m' = others 11 (entries example_map)
               ∧ ∀ k', k' ≠ 11 →
                   outcome (find k' m') = outcome (find k' example_map)
                   ∧ outcome (at_ k' m') = outcome (at_ k' example_map))
          ∧ (¬ contains example_map 11 → m' = example_map).
Proof.
  split; [exact example_map_reachable|].
  apply (erase_correct 0 example_map 11 example_map_reachable).
Defined.

Lemma load_factor_bound_witness :
  reachable 0 example_map
  ∧ (∀ h : nat → nat, bucket_count (HashMap_new (ValueType:=nat) h) = 1)
  ∧ size_ example_map ≤ bucket_count example_map
  ∧ (∃ k, bucket_count example_map = 2 ^ k)
  ∧ (∀ m', step 0 example_map m' →
       size_ m' ≤ bucket_count m'
       ∧ bucket_count example_map ≤ bucket_count m'
       ∧ ∃ j, bucket_count m' = 2 ^ j * bucket_count example_map).
Proof.
  split; [exact example_map_reachable|].
  apply (load_factor_bound 0 example_map example_map_reachable).
Defined.

Lemma at_throws_iff_absent_witness :
  reachable 0 example_map
  ∧ (at_ 13 example_map = Throw out_of_range example_map
     ↔ ¬ contains example_map 13)
  ∧ (∀ v, (13, v) ∈ entries example_map → at_ 13 example_map = Val v example_map)
  ∧ (at_ 13 example_map = Throw out_of_range example_map
     ∨ ∃ v, at_ 13 example_map = Val v example_map).
Proof.
  split; [exact example_map_reachable|].
  apply (at_throws_iff_absent 0 example_map 13 example_map_reachable).
Defined.

Lemma index_access_witness :
  reachable 0 example_map
  ∧ (∀ n, n ∈ elements_ example_map → key_of n = 13 →
       index 0 13 example_map = Val (addr n) example_map
       ∧ node_of (node_at (addr n)) (elements_ example_map) = Some n)
  ∧ (¬ contains example_map 13 →
       ∃ a m', index 0 13 example_map = Val a m'
               ∧ insert (13, 0) example_map = Val tt m'
               ∧ node_of (node_at a) (elements_ m')
                 = Some {| addr := a; elem := (13, 0) |}
               ∧ size_ m' = S (size_ example_map)).
Proof.
  split; [exact example_map_reachable|].
  apply (index_access 0 example_map 13 example_map_reachable).
Defined.

Lemma example_store_0 : example_store !! 0 = Some example_map.
Proof. apply lookup_insert_eq. Defined.

Lemma example_store_1 : example_store !! 1 = Some example_other.
Proof. rewrite lookup_insert_ne by lia. apply lookup_insert_eq. Defined.

Lemma copy_assignment_independent_witness :
  example_store !! 0 = Some example_map
  ∧ example_store !! 1 = Some example_other
  ∧ reachable 0 example_map ∧ reachable 0 example_other ∧ 0 ≠ 1
  ∧ operator_assign 0 0 example_store = Val tt example_store
  ∧ ∃ mb', operator_assign 1 0 example_store
           = Val tt (<[1 := mb']> example_store)
      ∧ reachable 0 mb'
      ∧ entries mb' = reverse (entries example_map)
      ∧ entries mb' ≡ₚ entries example_map
      ∧ size_ mb' = size_ example_map
      ∧ (∀ k, outcome (at_ k mb') = outcome (at_ k example_map))
      ∧ <[1 := mb']> example_store !! 0 = Some example_map
      ∧ (∀ p, ∃ σ', call 1 (insert p) (<[1 := mb']> example_store) = Val tt σ'
                    ∧ σ' !! 0 = Some example_map)
      ∧ (∀ k, ∃ σ', call 1 (erase k) (<[1 := mb']> example_store) = Val tt σ'
                    ∧ σ' !! 0 = Some example_map)
      ∧ (∀ p, ∃ σ', call 0 (insert p) (<[1 := mb']> example_store) = Val tt σ'
                    ∧ σ' !! 1 = Some mb')
      ∧ (∀ k, ∃ σ', call 0 (erase k) (<[1 := mb']> example_store) = Val tt σ'
                    ∧ σ' !! 1 = Some mb').
Proof.
  assert (Hne : 0 ≠ 1) by lia.
  split; [exact example_store_0|]. split; [exact example_store_1|].
  split; [exact example_map_reachable|]. split; [exact example_other_reachable|].
  split; [exact Hne|].
  apply (copy_assignment_independent 0 example_store 0 1 example_map
           example_other example_store_0 example_store_1
           example_map_reachable example_other_reachable Hne).
Defined.

Lemma copy_assignment_keeps_hasher_witness :
  example_store !! 0 = Some example_map
  ∧ example_store !! 1 = Some example_other
  ∧ reachable 0 example_map ∧ reachable 0 example_other
  ∧ ∃ σ' mb', operator_assign 1 0 example_store = Val tt σ'
              ∧ σ' !! 1 = Some mb'
              ∧ hasher_ mb' = hasher_ example_other
              ∧ call 1 hash_function σ' = Val (hasher_ example_other) σ'.
Proof.
  split; [exact example_store_0|]. split; [exact example_store_1|].
  split; [exact example_map_reachable|]. split; [exact example_other_reachable|].
  apply (copy_assignment_keeps_hasher 0 example_store 0 1 example_map
           example_other example_store_0 example_store_1
           example_map_reachable example_other_reachable).
Defined.

(** The scenario of the specification, with the keys 1, 2, 3: three
    [insert]s, of which the second and the third rehash, then [at],
    [erase], [find] and [size]. *)
Example spec_scenario :
  (insert (1, 10);;; insert (2, 20);;; insert (3, 30);;;
   v <- at_ 2;; erase 1;;; it <- find 1;; n <- size;; ret (v, it, n))
    (HashMap_new (λ k : nat, k))
  = Val (20, past_end, 2)
        {| hasher_ := λ k : nat, k;
           elements_ := [ {| addr := 3; elem := (3, 30) |};
                          {| addr := 2; elem := (2, 20) |} ];
           table_ := [[]; []; [node_at 3]; [before_begin]];
           size_ := 2 |}.
Proof. reflexivity. Qed.

(** A marker that points at no node of the list is undefined behaviour,
    not a silent miss. *)
Example dangling_marker_undefined :
  find 5 {| hasher_ := λ k : nat, k;
            elements_ := [ {| addr := 1; elem := (4, 40) |} ];
            table_ := [[node_at 9]];
            size_ := 1 |}
  = Undefined.
Proof. reflexivity. Qed.

(** ** The further properties at the example map *)

Lemma clear_resets_witness :
  reachable 0 example_map
  ∧ ∃ m', clear example_map = Val tt m' ∧ elements_ m' = [] ∧ size_ m' = 0
          ∧ (∀ b, b ∈ table_ m' → b = [])
          ∧ bucket_count m' = bucket_count example_map
          ∧ hasher_ m' = hasher_ example_map
          ∧ ∀ k, find k m' = Val past_end m'
                 ∧ at_ k m' = Throw out_of_range m'.
Proof.
  split; [exact example_map_reachable|].
  apply (clear_resets 0 example_map example_map_reachable).
Defined.

Lemma empty_iff_size_zero_witness :
  reachable 0 example_map
  ∧ ∃ b n, empty example_map = Val b example_map
           ∧ size example_map = Val n example_map ∧ (b = true ↔ n = 0).
Proof.
  split; [exact example_map_reachable|].
  apply (empty_iff_size_zero 0 example_map example_map_reachable).
Defined.

Lemma find_agrees_with_at_witness :
  reachable 0 example_map
  ∧ ∃ it, find 11 example_map = Val it example_map
          ∧ ((it = past_end ∧ ¬ contains example_map 11
              ∧ at_ 11 example_map = Throw out_of_range example_map)
             ∨ (∃ n, it = node_at (addr n)
                     ∧ node_of it (elements_ example_map) = Some n
                     ∧ key_of n = 11
                     ∧ at_ 11 example_map = Val (value_of n) example_map)).
Proof.
  split; [exact example_map_reachable|].
  apply (find_agrees_with_at 0 example_map 11 example_map_reachable).
Defined.

Lemma iteration_visits_entries_witness :
  reachable 0 example_map
  ∧ ∃ first, begin_ example_map = Val first example_map
             ∧ end_ example_map = Val past_end example_map
             ∧ iterate (size_ example_map) first (elements_ example_map)
               = Some (entries example_map)
             ∧ length (entries example_map) = size_ example_map.
Proof.
  split; [exact example_map_reachable|].
  apply (iteration_visits_entries 0 example_map example_map_reachable).
Defined.

Lemma insert_front_keeps_iterators_witness :
  reachable 0 example_map ∧ ¬ contains example_map 13
  ∧ ∃ m', insert (13, 4) example_map = Val tt m'
          ∧ entries m' = (13, 4) :: entries example_map
          ∧ (∃ first n, begin_ m' = Val first m'
                        ∧ node_of first (elements_ m') = Some n
                        ∧ elem n = (13, 4))
          ∧ ∀ n, n ∈ elements_ example_map →
                 node_of (node_at (addr n)) (elements_ m') = Some n.
Proof.
  split; [exact example_map_reachable|]. split; [exact example_map_lacks_13|].
  apply (insert_front_keeps_iterators 0 example_map 13 4
           example_map_reachable example_map_lacks_13).
Defined.

Lemma erase_keeps_other_iterators_witness :
  reachable 0 example_map
  ∧ ∃ m', erase 11 example_map = Val tt m'
          ∧ (∀ n, n ∈ elements_ example_map → key_of n ≠ 11 →
                  node_of (node_at (addr n)) (elements_ m') = Some n)
          ∧ (∀ n, n ∈ elements_ example_map → key_of n = 11 →
                  node_of (node_at (addr n)) (elements_ m') = None).
Proof.
  split; [exact example_map_reachable|].
  apply (erase_keeps_other_iterators 0 example_map 11 example_map_reachable).
Defined.

Lemma insert_then_erase_restores_witness :
  reachable 0 example_map ∧ ¬ contains example_map 13
  ∧ ∃ m1 m2, insert (13, 4) example_map = Val tt m1
             ∧ erase 13 m1 = Val tt m2
             ∧ preserved example_map m2
             ∧ bucket_count example_map ≤ bucket_count m2.
Proof.
  split; [exact example_map_reachable|]. split; [exact example_map_lacks_13|].
  apply (insert_then_erase_restores 0 example_map 13 4
           example_map_reachable example_map_lacks_13).
Defined.

Lemma index_then_at_witness :
  reachable 0 example_map
  ∧ ∃ a m', index 0 13 example_map = Val a m' ∧ index 0 13 m' = Val a m'
            ∧ ∃ v, at_ 13 m' = Val v m'
                   ∧ (¬ contains example_map 13 → v = 0)
                   ∧ (∀ v0, (13, v0) ∈ entries example_map → v = v0).
Proof.
  split; [exact example_map_reachable|].
  apply (index_then_at 0 example_map 13 example_map_reachable).
Defined.

Lemma erase_then_insert_updates_witness :
  reachable 0 example_map
  ∧ ∃ m1 m2, erase 11 example_map = Val tt m1
             ∧ insert (11, 9) m1 = Val tt m2
             ∧ at_ 11 m2 = Val 9 m2
             ∧ entries m2 = (11, 9) :: others 11 (entries example_map).
Proof.
  split; [exact example_map_reachable|].
  apply (erase_then_insert_updates 0 example_map 11 9 example_map_reachable).
Defined.

Lemma unique_keys_witness :
  reachable 0 example_map
  ∧ NoDup (entries example_map).*1 ∧ NoDup (addrs (elements_ example_map)).
Proof.
  split; [exact example_map_reachable|].
  apply (unique_keys 0 example_map example_map_reachable).
Defined.

Lemma markers_valid_witness :
  reachable 0 example_map
  ∧ (∀ j b mk, table_ example_map !! j = Some b → mk ∈ b →
       ∃ n, n ∈ elements_ example_map
            ∧ next_of mk (elements_ example_map) = Some (node_at (addr n))
            ∧ hasher_ example_map (key_of n) `mod` bucket_count example_map
              = j)
  ∧ NoDup (concat (table_ example_map)).
Proof.
  split; [exact example_map_reachable|].
  apply (markers_valid 0 example_map example_map_reachable).
Defined.

Abbreviation example_cleared :=
  ({| hasher_ := λ k : nat, k;
      elements_ := [];
      table_ := [[]; []; []; []];
      size_ := 0 |} : HashMap (KeyType:=nat) (ValueType:=nat)).

Lemma example_map_step : step 0 example_map example_cleared.
Proof. apply step_clear. reflexivity. Defined.

Lemma hasher_constant_witness :
  reachable 0 example_map ∧ step 0 example_map example_cleared
  ∧ hasher_ example_cleared = hasher_ example_map
  ∧ hash_function example_cleared
    = Val (hasher_ example_map) example_cleared.
Proof.
  split; [exact example_map_reachable|]. split; [exact example_map_step|].
  apply (hasher_constant 0 example_map example_cleared
           example_map_reachable example_map_step).
Defined.

Lemma insert_growth_witness :
  reachable 0 example_map
  ∧ ∃ m', insert (13, 4) example_map = Val tt m'
          ∧ (contains example_map 13 →
               size_ m' = size_ example_map
               ∧ bucket_count m' = bucket_count example_map)
          ∧ (¬ contains example_map 13 →
               size_ m' = S (size_ example_map)
               ∧ (size_ example_map = bucket_count example_map →
                    bucket_count m' = 2 * bucket_count example_map)
               ∧ (size_ example_map < bucket_count example_map →
                    bucket_count m' = bucket_count example_map)).
Proof.
  split; [exact example_map_reachable|].
  apply (insert_growth 0 example_map (13, 4) example_map_reachable).
Defined.

Lemma find_prev_in_bucket_spec_witness :
  reachable 0 example_map ∧ 3 < bucket_count example_map
  ∧ ∃ b i, table_ example_map !! 3 = Some b
           ∧ find_prev_in_bucket 3 11 example_map = Val i example_map
           ∧ i ≤ length b
           ∧ (i < length b ↔
              contains example_map 11
              ∧ 3 = hasher_ example_map 11 `mod` bucket_count example_map)
           ∧ ∀ mk, b !! i = Some mk →
                   ∃ n, succ_node mk (elements_ example_map) = Some n
                        ∧ key_of n = 11.
Proof.
  assert (Hlt : 3 < bucket_count example_map) by (unfold bucket_count; simpl; lia).
  split; [exact example_map_reachable|]. split; [exact Hlt|].
  apply (find_prev_in_bucket_spec 0 example_map 3 11 example_map_reachable Hlt).
Defined.

Lemma insert_frames_other_keys_witness :
  reachable 0 example_map ∧ 11 ≠ (13, 4).1
  ∧ ∃ m', insert (13, 4) example_map = Val tt m'
          ∧ outcome (find 11 m') = outcome (find 11 example_map)
          ∧ outcome (at_ 11 m') = outcome (at_ 11 example_map).
Proof.
  assert (Hne : 11 ≠ (13, 4).1) by (simpl; lia).
  split; [exact example_map_reachable|]. split; [exact Hne|].
  apply (insert_frames_other_keys 0 example_map (13, 4) 11
           example_map_reachable Hne).
Defined.

Lemma no_undefined_behaviour_witness :
  reachable 0 example_map
  ∧ (∀ p, ∃ m', insert p example_map = Val tt m')
  ∧ (∀ k, ∃ m', erase k example_map = Val tt m')
  ∧ (∀ k, ∃ a m', index 0 k example_map = Val a m')
  ∧ (∃ m', clear example_map = Val tt m')
  ∧ (∃ m', rehash example_map = Val tt m')
  ∧ (∀ k, ∃ it, find k example_map = Val it example_map)
  ∧ (∀ k, at_ k example_map = Throw out_of_range example_map
          ∨ ∃ v, at_ k example_map = Val v example_map)
  ∧ (∃ it, begin_ example_map = Val it example_map)
  ∧ (∃ n, size example_map = Val n example_map)
  ∧ (∃ b, empty example_map = Val b example_map).
Proof.
  split; [exact example_map_reachable|].
  apply (no_undefined_behaviour 0 example_map example_map_reachable).
Defined.

(** The range constructor on a range that repeats a key. *)
Example range_constructor_example :
  ∃ m, HashMap_range [(1, 10); (2, 20); (1, 30)] (λ k : nat, k) = Val tt m
       ∧ entries m = [(2, 20); (1, 10)] ∧ at_ 1 m = Val 10 m.
Proof. eexists. split; [reflexivity|]. split; reflexivity. Qed.
